(** * Streaming annotation decoder and incremental overlay renderer

    A shallow embedding of the box decoder ([parseBoxesFromTokens]) and of the
    incremental painter ([renderBoxes]) of [src/renderer.js], together with
    the properties of the decoder and of the render cursor.

    Conventions of the embedding:
    - a JavaScript string is the list of its UTF-16 code units ([list N]);
    - a JavaScript Number is an IEEE 754 binary64 value ([PrimFloat.float]);
    - the module-level variables [lastBoxCount] and the SVG overlay element
      are one explicit state record threaded through [renderBoxes]. *)

From Stdlib Require Import ZArith NArith PrimFloat SpecFloat FloatOps.
From stdpp Require Import base strings list.

Set Default Proof Using "Type".

(** ** JavaScript strings *)

Abbreviation jsstring := (list N).

(** An ASCII literal as a JavaScript string. *)
Definition js (s : string) : jsstring :=
  Ascii.N_of_ascii <$> String.list_ascii_of_string s.

Global Arguments js : simpl never.

(** WhiteSpace and LineTerminator code points of ECMAScript, the characters
    removed by [String.prototype.trim] and skipped by [parseFloat]:
    TAB, LF, VT, FF, CR, SP, NBSP, U+1680, U+2000..U+200A, U+2028, U+2029,
    U+202F, U+205F, U+3000, U+FEFF. *)
Definition isWhiteSpace (c : N) : bool :=
  ((c =? 9) || (c =? 10) || (c =? 11) || (c =? 12) || (c =? 13) || (c =? 32)
   || (c =? 160) || (c =? 5760) || ((8192 <=? c) && (c <=? 8202))
   || (c =? 8232) || (c =? 8233) || (c =? 8239) || (c =? 8287)
   || (c =? 12288) || (c =? 65279))%N.

Fixpoint dropWhile {A} (p : A → bool) (l : list A) : list A :=
  match l with
  | [] => []
  | x :: l' => if p x then dropWhile p l' else l
  end.

Fixpoint takeWhile {A} (p : A → bool) (l : list A) : list A :=
  match l with
  | [] => []
  | x :: l' => if p x then x :: takeWhile p l' else []
  end.

Definition trimStart (s : jsstring) : jsstring := dropWhile isWhiteSpace s.
Definition trimEnd (s : jsstring) : jsstring :=
  reverse (dropWhile isWhiteSpace (reverse s)).

(** [s.trim()] *)
Definition trim (s : jsstring) : jsstring := trimEnd (trimStart s).

(** [s.substring(a, b)]: both indices are clamped to the length and swapped
    when out of order. *)
Definition substring (s : jsstring) (a b : nat) : jsstring :=
  let a' := a `min` length s in
  let b' := b `min` length s in
  take ((a' `max` b') - (a' `min` b')) (drop (a' `min` b') s).

(** [s.substring(a)] *)
Definition substringFrom (s : jsstring) (a : nat) : jsstring :=
  substring s a (length s).

(** [s.split(sep)] for a one-character separator. *)
Fixpoint split (sep : N) (s : jsstring) : list jsstring :=
  match s with
  | [] => [[]]
  | c :: s' =>
      if (c =? sep)%N then [] :: split sep s'
      else match split sep s' with
           | p :: ps => (c :: p) :: ps
           | [] => [[c]]
           end
  end.

(** [s.startsWith(p)], the test behind every literal of a pattern. *)
Fixpoint startsWith (p s : jsstring) : bool :=
  match p, s with
  | [], _ => true
  | _ :: _, [] => false
  | a :: p', b :: s' => (a =? b)%N && startsWith p' s'
  end.

(** ** JavaScript Numbers and [parseFloat] *)

Definition isDigit (c : N) : bool := ((48 <=? c) && (c <=? 57))%N.

(** Value of a run of decimal digits, most significant first. *)
Definition digitsValue (ds : jsstring) : N :=
  foldl (λ acc d, acc * 10 + (d - 48))%N 0%N ds.

(** The Number nearest to [(-1)^neg * m * 10^e] (ties to even): the
    decimal is converted exactly, as engines do. The quotient of the two
    integers is rounded once, by [SFdiv]. *)
Definition decimalToNumber (neg : bool) (m : N) (e : Z) : float :=
  match m with
  | N0 => if neg then neg_zero else zero
  | Npos p =>
      let num := (p * Pos.pow 10 (Z.to_pos e))%positive in
      let den := Pos.pow 10 (Z.to_pos (- e)) in
      SF2Prim
        (SFdiv prec emax
           (S754_finite neg (if (0 <? e)%Z then num else p) 0)
           (S754_finite false (if (e <? 0)%Z then den else 1%positive) 0))
  end.

(** Optional [ExponentPart]: [e] or [E], an optional sign and at least one
    digit; anything else contributes no exponent. *)
Definition exponentPart (s : jsstring) : Z :=
  match s with
  | c :: s' =>
      if ((c =? 101) || (c =? 69))%N then
        let '(neg, s'') :=
          match s' with
          | sg :: t =>
              if (sg =? 45)%N then (true, t)
              else if (sg =? 43)%N then (false, t) else (false, s')
          | [] => (false, s')
          end in
        let ds := takeWhile isDigit s'' in
        match ds with
        | [] => 0%Z
        | _ => let v := Z.of_N (digitsValue ds) in if neg then (- v)%Z else v
        end
      else 0%Z
  | [] => 0%Z
  end.

(** [parseFloat(s)]: skip leading white space, then read the longest prefix
    that is a [StrDecimalLiteral]; [nan] when there is none. *)
Definition parseFloat (s : jsstring) : float :=
  let s0 := trimStart s in
  let '(neg, s1) :=
    match s0 with
    | sg :: t =>
        if (sg =? 45)%N then (true, t)
        else if (sg =? 43)%N then (false, t) else (false, s0)
    | [] => (false, s0)
    end in
  if startsWith (js "Infinity") s1 then
    if neg then neg_infinity else infinity
  else
    let ip := takeWhile isDigit s1 in
    let s2 := drop (length ip) s1 in
    let '(fp, s3) :=
      match s2 with
      | dot :: t =>
          if (dot =? 46)%N then
            let fp := takeWhile isDigit t in
            match ip, fp with
            | [], [] => ([], s2)
            | _, _ => (fp, drop (length fp) t)
            end
          else ([], s2)
      | [] => ([], s2)
      end in
    match ip ++ fp with
    | [] => nan
    | ds => decimalToNumber neg (digitsValue ds)
              (exponentPart s3 - Z.of_nat (length fp))
    end.

(** [isNaN(n)] on a Number. *)
Definition isNaN (n : float) : bool := PrimFloat.is_nan n.

(** ** Regular expressions: the fragment [refDetRegex] is written in *)

Inductive rxItem :=
  | Lit (l : jsstring)        (** a run of literal characters *)
  | GroupNotPlus (c : N).     (** the capturing group [([^c]+)], greedy *)

(** A greedy quantifier first takes the [k] characters it can, then gives
    them back one at a time, down to one, until the rest of the pattern
    ([cont]) matches. *)
Fixpoint backtrack (cont : jsstring → option (list jsstring * nat))
    (s : jsstring) (k : nat) : option (list jsstring * nat) :=
  match k with
  | 0 => None
  | S k' =>
      match cont (drop k s) with
      | Some (caps, n) => Some (take k s :: caps, k + n)
      | None => backtrack cont s k'
      end
  end.

(** [rxMatch p s]: match pattern [p] at the start of [s]; the captures, in
    order, and the number of code units consumed. *)
Fixpoint rxMatch (p : list rxItem) (s : jsstring)
    : option (list jsstring * nat) :=
  match p with
  | [] => Some ([], 0)
  | Lit l :: p' =>
      if startsWith l s then
        match rxMatch p' (drop (length l) s) with
        | Some (caps, n) => Some (caps, length l + n)
        | None => None
        end
      else None
  | GroupNotPlus c :: p' =>
      backtrack (rxMatch p') s
        (length (takeWhile (λ x, negb (x =? c)%N) s))
  end.

(** Scan for the first position at or after [pos] where the pattern
    matches; [s] is the text from [pos] on. *)
Fixpoint execFrom (p : list rxItem) (s : jsstring) (pos : nat)
    : option (nat * list jsstring * nat) :=
  match rxMatch p s with
  | Some (caps, n) => Some (pos, caps, n)
  | None =>
      match s with
      | [] => None
      | _ :: s' => execFrom p s' (S pos)
      end
  end.

(** [regex.exec(text)] for a global regex whose [lastIndex] is [lastIndex]:
    the index of the match, its captures and its length, or [None] for
    [null]. The caller keeps the new [lastIndex], index plus length. *)
Definition exec (p : list rxItem) (text : jsstring) (lastIndex : nat)
    : option (nat * list jsstring * nat) :=
  if decide (lastIndex ≤ length text)
  then execFrom p (drop lastIndex text) lastIndex
  else None.

(** ** Constants of [renderer.js] *)

Definition DEEPSEEK_COORD_MAX : float := 999%float.

Definition KNOWN_TYPES : list jsstring :=
  js <$> ["title"; "sub_title"; "text"; "table"; "image"; "image_caption";
          "figure"; "caption"; "formula"; "list"].

(** [/<\|ref\|>([^<]+)<\|\/ref\|><\|det\|>\[\[([^\]]+)\]\]<\|\/det\|>/g] *)
Definition refDetRegex : list rxItem :=
  [ Lit (js "<|ref|>"); GroupNotPlus 60;
    Lit (js "<|/ref|><|det|>[["); GroupNotPlus 93;
    Lit (js "]]<|/det|>") ].

(** ** The decoder: [parseBoxesFromTokens] *)

Module MatchData.
(** The objects pushed on [matches]. *)
Record t := mk {
  content : jsstring;
  coords : jsstring;
  matchStart : nat;
  matchEnd : nat
}.
End MatchData.

(** The objects pushed on [boxes]. *)
Record box := mkBox {
  content : jsstring;
  textContent : jsstring;
  isType : bool;
  type : jsstring;
  x1 : float;
  y1 : float;
  x2 : float;
  y2 : float;
  isComplete : bool
}.

(** The [while ((match = refDetRegex.exec(tokenText)) !== null)] loop. Every
    iteration moves [lastIndex] forward, so [fuel] bounds the iterations
    (see [collectLoop_fuel]). *)
Fixpoint collectLoop (fuel : nat) (tokenText : jsstring) (lastIndex : nat)
    : list MatchData.t :=
  match fuel with
  | 0 => []
  | S fuel' =>
      match exec refDetRegex tokenText lastIndex with
      | None => []
      | Some (index, caps, n) =>
          MatchData.mk (trim (caps !!! 0)) (caps !!! 1) index (index + n)
            :: collectLoop fuel' tokenText (index + n)
      end
  end.

Definition collectMatches (tokenText : jsstring) : list MatchData.t :=
  collectLoop (S (length tokenText)) tokenText 0.

(** [coords.split(',').map(s => parseFloat(s.trim())).filter(n => !isNaN(n))] *)
Definition parseCoords (coordsText : jsstring) : list float :=
  filter (λ n, isNaN n = false)
    ((λ s, parseFloat (trim s)) <$> split 44 coordsText).

(** The body of the [for] loop at index [i]: the box pushed for
    [matches[i]], or [None] when nothing is pushed (the coordinates do not
    parse to four numbers, or an exception is caught). *)
Definition processMatch (tokenText : jsstring) (isOcrComplete : bool)
    (matches : list MatchData.t) (i : nat) : option box :=
  matchData ← matches !! i;
  let content := MatchData.content matchData in
  match parseCoords (MatchData.coords matchData) with
  | [c0; c1; c2; c3] =>
      let isType := bool_decide (content ∈ KNOWN_TYPES) in
      if decide (i < length matches - 1) then
        next ← matches !! (i + 1);
        let textContent :=
          trim (substring tokenText (MatchData.matchEnd matchData)
                  (MatchData.matchStart next)) in
        Some (mkBox content textContent isType
                (if isType then content else js "text")
                c0 c1 c2 c3 (bool_decide (0 < length textContent)))
      else
        let textContent :=
          trim (substringFrom tokenText (MatchData.matchEnd matchData)) in
        Some (mkBox content textContent isType
                (if isType then content else js "text")
                c0 c1 c2 c3
                (isOcrComplete && bool_decide (0 < length textContent)))
  | _ => None
  end.

Definition parseBoxesFromTokens (tokenText : jsstring) (isOcrComplete : bool)
    : list box :=
  let matches := collectMatches tokenText in
  omap (processMatch tokenText isOcrComplete matches)
    (seq 0 (length matches)).

(** ** The painter: [renderBoxes] *)

(** Number truthiness: [+0], [-0] and [NaN] are falsy. *)
Definition truthyNumber (n : float) : bool :=
  negb (PrimFloat.is_zero n || PrimFloat.is_nan n).

(** The four locals [scaledX1, scaledY1, scaledX2, scaledY2] of
    [renderBoxes] ([x1, y1, x2, y2] in [viewBoxesImage]). *)
Definition scaleBox (b : box) (imageWidth imageHeight : float)
    : float * float * float * float :=
  ((x1 b / DEEPSEEK_COORD_MAX) * imageWidth,
   (y1 b / DEEPSEEK_COORD_MAX) * imageHeight,
   (x2 b / DEEPSEEK_COORD_MAX) * imageWidth,
   (y2 b / DEEPSEEK_COORD_MAX) * imageHeight)%float.

(** The [<g>] element built for one box: the geometry shared by its fill and
    border rectangles, the label, and the interaction the group gets.
    Colours, fonts and the fade-in animation are not modelled. *)
Record svgGroup := mkGroup {
  rectX : float;
  rectY : float;
  rectWidth : float;
  rectHeight : float;
  displayText : jsstring;
  isClickable : bool;      (** listeners attached, [pointer-events: all] *)
  copyText : jsstring;     (** what a click writes to the clipboard *)
  dimmed : bool            (** [opacity: 0.6], not ready yet *)
}.

(** The body of [newBoxes.forEach]. [promptType] is [None] for [null]. *)
Definition paintBox (imageWidth imageHeight : float)
    (promptType : option jsstring) (b : box) : svgGroup :=
  let '(scaledX1, scaledY1, scaledX2, scaledY2) :=
    scaleBox b imageWidth imageHeight in
  let isInteractive :=
    bool_decide (promptType = Some (js "ocr"))
    || bool_decide (promptType = Some (js "document")) in
  let displayText :=
    if isType b then type b
    else if decide (30 < length (content b))
         then substring (content b) 0 30 ++ js "..."
         else content b in
  let '(isClickable, copyText) :=
    if decide (promptType = Some (js "ocr")) then
      (negb (isType b) && isInteractive, content b)
    else if decide (promptType = Some (js "document")) then
      (isType b && isComplete b && bool_decide (0 < length (textContent b))
       && isInteractive, textContent b)
    else (false, []) in
  mkGroup scaledX1 scaledY1 (scaledX2 - scaledX1)%float
    (scaledY2 - scaledY1)%float displayText isClickable copyText
    (negb isClickable && isType b
     && bool_decide (promptType = Some (js "document"))
     && negb (isComplete b)).

(** The mutable state [renderBoxes] works on: the [viewBox] attribute and
    the children of [ocrBoxesOverlay], and the variable [lastBoxCount]. *)
Record overlay := mkOverlay {
  viewBox : option (float * float);
  children : list svgGroup;
  lastBoxCount : nat
}.

(** A dimension argument of [renderBoxes]: a Number, or [None] for
    [undefined]. [falsy v] is [!v]; [toNumber] is the conversion arithmetic
    applies. *)
Definition falsy (v : option float) : bool :=
  match v with
  | None => true
  | Some n => negb (truthyNumber n)
  end.

Definition toNumber (v : option float) : float := default nan v.

(** [renderBoxes(boxes, imageWidth, imageHeight, promptType)] *)
Definition renderBoxes (boxes : list box) (imageWidth imageHeight : option float)
    (promptType : option jsstring) (st : overlay) : overlay :=
  if falsy imageWidth || falsy imageHeight || bool_decide (length boxes = 0)
  then st
  else
    let newBoxes := drop (lastBoxCount st) boxes in
    mkOverlay
      (match viewBox st with
       | None => Some (toNumber imageWidth, toNumber imageHeight)
       | Some v => Some v
       end)
      (children st
       ++ (paintBox (toNumber imageWidth) (toNumber imageHeight) promptType
             <$> newBoxes))
      (length boxes).

(** The box rectangles of [viewBoxesImage], for a selected image: the
    [(x, y, w, h)] that the [fillRect] and the [strokeRect] of each box
    share, in drawing order; [currentRawTokens] is [None] for [null]. The
    label drawn on top of each box and the guard on [currentImagePath] are
    in [viewBoxesCanvas], the whole sequence of canvas calls. *)
Definition viewBoxesImage (currentRawTokens : option jsstring)
    (width height : float) : list (float * float * float * float) :=
  match currentRawTokens with
  | Some (c :: tokens) =>
      (λ b, let '(x1, y1, x2, y2) := scaleBox b width height in
            (x1, y1, (x2 - x1)%float, (y2 - y1)%float))
        <$> parseBoxesFromTokens (c :: tokens) true
  | _ => []
  end.

(** *** One processing run of [performOCR] *)

(** The overlay is cleared and the cursor reset when an image is selected or
    removed and when a run starts or fails. *)
Definition clearOverlay : overlay := mkOverlay None [] 0.

(** A poll tick that got a (non-empty) [data.raw_token_stream]. *)
Definition pollTick (imageNaturalWidth imageNaturalHeight : float)
    (currentPromptType : option jsstring) (raw_token_stream : jsstring)
    (st : overlay) : overlay :=
  match raw_token_stream with
  | [] => st
  | _ =>
      renderBoxes (parseBoxesFromTokens raw_token_stream false)
        (Some imageNaturalWidth) (Some imageNaturalHeight)
        currentPromptType st
  end.

(** The final render once the OCR call has returned: the cursor is reset,
    the children dropped, and every box painted again from the complete
    stream. *)
Definition finalRender (imageNaturalWidth imageNaturalHeight : float)
    (currentPromptType : option jsstring) (currentRawTokens : jsstring)
    (st : overlay) : overlay :=
  match currentRawTokens with
  | [] => st
  | _ =>
      if truthyNumber imageNaturalWidth && truthyNumber imageNaturalHeight
      then
        renderBoxes (parseBoxesFromTokens currentRawTokens true)
          (Some imageNaturalWidth) (Some imageNaturalHeight)
          currentPromptType (mkOverlay (viewBox st) [] 0)
      else st
  end.

(** The states after each poll tick of a run, oldest first. *)
Fixpoint pollRun (w h : float) (mode : option jsstring)
    (snapshots : list jsstring) (st : overlay) : list overlay :=
  match snapshots with
  | [] => []
  | s :: rest =>
      let st' := pollTick w h mode s st in st' :: pollRun w h mode rest st'
  end.

(** ** The text view, the colour table and the text panel *)

(** The own properties of the object [TYPE_COLORS], in source order. *)
Definition TYPE_COLORS : list (jsstring * jsstring) :=
  [ (js "title", js "#8B5CF6"); (js "sub_title", js "#A78BFA");
    (js "text", js "#3B82F6"); (js "table", js "#F59E0B");
    (js "image", js "#EC4899"); (js "figure", js "#06B6D4");
    (js "caption", js "#10B981"); (js "image_caption", js "#4EC483");
    (js "formula", js "#EF4444"); (js "list", js "#6366F1") ].

(** [pieces.join(sep)] *)
Fixpoint join (sep : jsstring) (pieces : list jsstring) : jsstring :=
  match pieces with
  | [] => []
  | p :: rest =>
      match rest with
      | [] => p
      | _ :: _ => p ++ sep ++ join sep rest
      end
  end.

(** [extractTextFromTokens(tokenText)]; the separator is the line feed. *)
Definition extractTextFromTokens (tokenText : jsstring) : jsstring :=
  let boxes := parseBoxesFromTokens tokenText false in
  let textPieces := content <$> filter (λ b, isType b = false) boxes in
  join [10%N] textPieces.

(** What a poll tick writes to the text panel ([resultsContent.textContent],
    here [panel]): in ['ocr'] mode the extracted text unless it is empty, in
    every other mode the raw stream; nothing without a stream. *)
Definition pollText (currentPromptType : option jsstring)
    (raw_token_stream : jsstring) (panel : jsstring) : jsstring :=
  match raw_token_stream with
  | [] => panel
  | _ =>
      if decide (currentPromptType = Some (js "ocr")) then
        let extractedText := extractTextFromTokens raw_token_stream in
        match extractedText with
        | [] => panel
        | _ => extractedText
        end
      else raw_token_stream
  end.

(** The panel after each poll tick of a run, oldest first. *)
Fixpoint pollTextRun (mode : option jsstring) (snapshots : list jsstring)
    (panel : jsstring) : list jsstring :=
  match snapshots with
  | [] => []
  | s :: rest =>
      let panel' := pollText mode s panel in
      panel' :: pollTextRun mode rest panel'
  end.

(** ** What [performOCR] shows when the run has succeeded *)

(** The image pattern of [displayResults] and [downloadZip] has a group that
    may be empty, so its items carry the least number of characters a group
    takes: [GroupNot c 0] is the starred group of the characters other than
    [c], greedy, and [GroupNot c 1] is [([^c]+)]. *)
Inductive imgItem :=
  | Chars (l : jsstring)
  | GroupNot (c : N) (least : nat).

(** The greedy quantifier of a group: take [k] characters, then give them
    back one at a time, down to [least], until the rest of the pattern
    ([cont]) matches. *)
Fixpoint giveBack (least : nat)
    (cont : jsstring → option (list jsstring * nat))
    (s : jsstring) (k : nat) : option (list jsstring * nat) :=
  if decide (least ≤ k) then
    match cont (drop k s) with
    | Some (caps, n) => Some (take k s :: caps, k + n)
    | None =>
        match k with
        | 0 => None
        | S k' => giveBack least cont s k'
        end
    end
  else None.

Fixpoint imgMatch (p : list imgItem) (s : jsstring)
    : option (list jsstring * nat) :=
  match p with
  | [] => Some ([], 0)
  | Chars l :: p' =>
      if startsWith l s then
        match imgMatch p' (drop (length l) s) with
        | Some (caps, n) => Some (caps, length l + n)
        | None => None
        end
      else None
  | GroupNot c least :: p' =>
      giveBack least (imgMatch p') s
        (length (takeWhile (λ x, negb (x =? c)%N) s))
  end.

Fixpoint imgExecFrom (p : list imgItem) (s : jsstring) (pos : nat)
    : option (nat * list jsstring * nat) :=
  match imgMatch p s with
  | Some (caps, n) => Some (pos, caps, n)
  | None =>
      match s with
      | [] => None
      | _ :: s' => imgExecFrom p s' (S pos)
      end
  end.

Definition imgExec (p : list imgItem) (text : jsstring) (lastIndex : nat)
    : option (nat * list jsstring * nat) :=
  if decide (lastIndex ≤ length text)
  then imgExecFrom p (drop lastIndex text) lastIndex
  else None.

(** The pattern, item by item: [!\[], the starred group of [[^\]]],
    [\]\(images\/], [([^)]+)] and [\)]. *)
Definition imageRegex : list imgItem :=
  [ Chars (js "!["); GroupNot 93 0; Chars (js "](images/"); GroupNot 41 1;
    Chars (js ")") ].

(** The successive matches of [imageRegex] in a text, each with its index,
    its captures and its length: what the [exec] loop of [downloadZip] walks
    through and what [replace] replaces. Every match is at least thirteen
    code units long, so [fuel] bounds the iterations (see
    [imageLoop_fuel]). *)
Fixpoint imageLoop (fuel : nat) (text : jsstring) (lastIndex : nat)
    : list (nat * list jsstring * nat) :=
  match fuel with
  | 0 => []
  | S fuel' =>
      match imgExec imageRegex text lastIndex with
      | None => []
      | Some (index, caps, n) =>
          (index, caps, n) :: imageLoop fuel' text (index + n)
      end
  end.

Definition imageMatches (text : jsstring) : list (nat * list jsstring * nat) :=
  imageLoop (S (length text)) text 0.

(** [text.replace(regex, ...)] for a global regex, given its matches in
    [text] from [pos] on and the replacement of each match. *)
Fixpoint stringReplace (replacement : list jsstring → jsstring)
    (text : jsstring) (pos : nat) (matches : list (nat * list jsstring * nat))
    : jsstring :=
  match matches with
  | [] => drop pos text
  | (index, caps, n) :: rest =>
      take (index - pos) (drop pos text) ++ replacement caps
        ++ stringReplace replacement text (index + n) rest
  end.

(** The replacement template
    [`![$1](${API_BASE_URL}/outputs/images/$2?t=${cacheBuster})`].
    [API_BASE_URL] is an origin and [cacheBuster] the digits of [Date.now()]:
    neither holds a [$], so [$1] and [$2] are the only references of the
    template. *)
Definition imageTemplate (API_BASE_URL cacheBuster : jsstring)
    (caps : list jsstring) : jsstring :=
  js "![" ++ caps !!! 0 ++ js "](" ++ API_BASE_URL ++ js "/outputs/images/"
    ++ caps !!! 1 ++ js "?t=" ++ cacheBuster ++ js ")".

(** [const renderedMarkdown] of [displayResults]. *)
Definition renderedMarkdown (API_BASE_URL cacheBuster : jsstring)
    (formattedResult : jsstring) : jsstring :=
  stringReplace (imageTemplate API_BASE_URL cacheBuster) formattedResult 0
    (imageMatches formattedResult).

(** What the results panel holds: a text ([resultsContent.textContent]) or
    the HTML that [marked.parse] makes of a Markdown source
    ([resultsContent.innerHTML]). *)
Inductive resultsPanel :=
  | PanelText (t : jsstring)
  | PanelMarkdown (source : jsstring).

(** [displayResults(result, promptType)] for a string [result]: the new
    [currentResultText] and the panel. [markedLoaded] is
    [typeof marked !== 'undefined']. *)
Definition displayResults (API_BASE_URL cacheBuster : jsstring)
    (markedLoaded : bool) (result : jsstring) (promptType : option jsstring)
    : jsstring * resultsPanel :=
  let formattedResult := result in
  if bool_decide (promptType = Some (js "document")) && markedLoaded then
    (formattedResult,
     PanelMarkdown (renderedMarkdown API_BASE_URL cacheBuster formattedResult))
  else (formattedResult, PanelText formattedResult).

(** The display of a successful run in [performOCR]: the new
    [currentResultText] and the panel, from [result.data.prompt_type],
    [currentRawTokens] ([None] for [null]) and [result.data.result]. *)
Definition showResult (API_BASE_URL cacheBuster : jsstring)
    (markedLoaded : bool) (prompt_type : option jsstring)
    (currentRawTokens : option jsstring) (result : jsstring)
    : jsstring * resultsPanel :=
  if decide (prompt_type = Some (js "ocr")) then
    let extractedText :=
      match currentRawTokens with
      | Some (c :: tokens) => extractTextFromTokens (c :: tokens)
      | _ => result
      end in
    (extractedText, PanelText extractedText)
  else if decide (prompt_type = Some (js "document")) then
    let '(_, panel) :=
      displayResults API_BASE_URL cacheBuster markedLoaded result prompt_type
    in (result, panel)
  else
    let rawText :=
      match currentRawTokens with
      | Some (c :: tokens) => c :: tokens
      | _ => result
      end in
    (rawText, PanelText rawText).

(** ** The archive of [downloadZip] *)

(** [imageFiles.add(match[2])] on a [Set], kept in insertion order. *)
Definition setAdd (set : list jsstring) (x : jsstring) : list jsstring :=
  if decide (x ∈ set) then set else set ++ [x].

(** [Array.from(imageFiles)] after the [exec] loop. *)
Definition imageFiles (currentResultText : jsstring) : list jsstring :=
  foldl setAdd [] ((λ m, m.1.2 !!! 1) <$> imageMatches currentResultText).

(** [downloadZip()]: [None] when it only reports that there is no document;
    otherwise the content of [output.md] and the addresses it fetches, one
    for each file of the [images] folder. *)
Definition downloadZip (API_BASE_URL : jsstring)
    (currentResultText currentPromptType : option jsstring)
    : option (jsstring * list jsstring) :=
  match currentResultText with
  | Some (c :: text) =>
      if decide (currentPromptType = Some (js "document")) then
        Some (c :: text,
              (λ filename, API_BASE_URL ++ js "/outputs/images/" ++ filename)
                <$> imageFiles (c :: text))
      else None
  | _ => None
  end.

(** ** The label of a painted box *)

(** [Math.max(a, b)] on two Numbers: [NaN] if either is, and [+0] counts as
    larger than [-0]. *)
Definition mathMax (a b : float) : float :=
  if PrimFloat.is_nan a || PrimFloat.is_nan b then nan
  else if (a <? b)%float then b
  else if (b <? a)%float then a
  else if PrimFloat.is_zero a && PrimFloat.get_sign a then b
  else a.

(** The attributes [x], [y], [width], [height] of the label background
    [labelBg] that [renderBoxes] puts on top of a box. The width and the
    height are whole numbers, kept as naturals. *)
Definition labelBg (imageWidth imageHeight : float)
    (promptType : option jsstring) (b : box) : float * float * nat * nat :=
  let '(scaledX1, scaledY1, _, _) := scaleBox b imageWidth imageHeight in
  let labelPadding := 4 in
  let labelHeight := 18 in
  let displayText :=
    displayText (paintBox imageWidth imageHeight promptType b) in
  let labelWidth := length displayText * 7 + labelPadding * 2 in
  (scaledX1, mathMax 0 (scaledY1 - 18)%float, labelWidth, labelHeight).

(** ** The canvas of [viewBoxesImage] *)

(** A call on the 2D context of the canvas. The styles set between the
    calls ([fillStyle], [strokeStyle], [lineWidth], [globalAlpha], [font])
    are not modelled. *)
Inductive canvasCall :=
  | DrawImage
  | FillRect (x y w h : float)
  | StrokeRect (x y w h : float)
  | FillText (text : jsstring) (x y : float).

(** The body of [boxes.forEach] in [viewBoxesImage]: the calls made for one
    box. [measureText b t] is [ctx.measureText(t).width] under the font set
    for [b]. *)
Definition drawBox (measureText : box → jsstring → float)
    (width height : float) (b : box) : list canvasCall :=
  let '(x1, y1, x2, y2) := scaleBox b width height in
  let labelPadding := 4%float in
  let labelHeight := 18%float in
  let displayText :=
    if isType b then type b
    else if decide (30 < length (content b))
         then substring (content b) 0 30 ++ js "..."
         else content b in
  let labelWidth := (measureText b displayText + labelPadding * 2)%float in
  let labelY := mathMax 0 (y1 - labelHeight)%float in
  [ FillRect x1 y1 (x2 - x1)%float (y2 - y1)%float;
    StrokeRect x1 y1 (x2 - x1)%float (y2 - y1)%float;
    FillRect x1 labelY labelWidth labelHeight;
    FillText displayText (x1 + labelPadding)%float (labelY + 13)%float ].

(** [viewBoxesImage()], once the image has loaded with size [width] by
    [height]: [None] when it returns at once because no image is selected,
    otherwise the calls on the canvas that is then shown in the lightbox.
    [currentImagePath] is [None] for [null]; the [File] it holds in the
    browser is truthy, as a non-empty path is. *)
Definition viewBoxesCanvas (currentImagePath currentRawTokens : option jsstring)
    (measureText : box → jsstring → float) (width height : float)
    : option (list canvasCall) :=
  match currentImagePath with
  | Some (_ :: _) =>
      Some (DrawImage
            :: match currentRawTokens with
               | Some (c :: tokens) =>
                   parseBoxesFromTokens (c :: tokens) true
                     ≫= drawBox measureText width height
               | _ => []
               end)
  | _ => None
  end.

(** ** Vocabulary of the properties *)

(** A target dimension that is unset ([undefined]) or zero ([+0] or [-0]). *)
Definition unsetOrZero (v : option float) : Prop :=
  match v with
  | None => True
  | Some n => PrimFloat.is_zero n = true
  end.

(** Annotation lists handed to successive paint calls, each one extending
    the one before ([prev] is the list of the call before the first). *)
Fixpoint growingLists (prev : list box) (lists : list (list box)) : Prop :=
  match lists with
  | [] => True
  | l :: rest => prev `prefix_of` l ∧ growingLists l rest
  end.

(** The same, when only the lengths are known not to decrease. *)
Fixpoint growingLengths (prev : nat) (lists : list (list box)) : Prop :=
  match lists with
  | [] => True
  | l :: rest => prev ≤ length l ∧ growingLengths (length l) rest
  end.

(** Successive paint calls on one target. *)
Definition paintAll (w h : float) (mode : option jsstring)
    (lists : list (list box)) (st : overlay) : overlay :=
  foldl (λ st boxes, renderBoxes boxes (Some w) (Some h) mode st) st lists.

(** The text of one tagged region:
    [<|ref|>LABEL<|/ref|><|det|>[[COORDS]]<|/det|>]. *)
Definition taggedRegion (label coordsText : jsstring) : jsstring :=
  js "<|ref|>" ++ label ++ js "<|/ref|><|det|>[[" ++ coordsText
     ++ js "]]<|/det|>".

(** [m] records a region of [text]: between its two offsets the text is one
    tagged region, whose label text is non-empty and free of [<] and whose
    coordinate text is non-empty and free of []]; [m] keeps the label
    trimmed and the coordinate text as it is. *)
Definition recordsRegion (text : jsstring) (m : MatchData.t) : Prop :=
  ∃ label coordsText,
    label ≠ [] ∧ (60%N ∉ label) ∧ coordsText ≠ [] ∧ (93%N ∉ coordsText)
    ∧ MatchData.matchEnd m
      = MatchData.matchStart m + length (taggedRegion label coordsText)
    ∧ MatchData.matchEnd m ≤ length text
    ∧ take (length (taggedRegion label coordsText))
        (drop (MatchData.matchStart m) text) = taggedRegion label coordsText
    ∧ MatchData.content m = trim label
    ∧ MatchData.coords m = coordsText.

(** The matches found from [lastIndex] on: each records a region, starts at
    or after [lastIndex], and is followed by matches that start at or after
    its end. *)
Inductive matchesFrom (text : jsstring) : nat → list MatchData.t → Prop :=
  | matchesFrom_nil lastIndex : matchesFrom text lastIndex []
  | matchesFrom_cons lastIndex m ms :
      lastIndex ≤ MatchData.matchStart m →
      recordsRegion text m →
      matchesFrom text (MatchData.matchEnd m) ms →
      matchesFrom text lastIndex (m :: ms).

(** A string that is not the empty string. *)
Definition nonEmpty (s : jsstring) : bool := bool_decide (s ≠ []).

(** Where the trailing text of match [i] stops: at the start of the next
    match, or at the end of the stream after the last match. *)
Definition trailingEnd (text : jsstring) (ms : list MatchData.t) (i : nat)
    : nat :=
  match ms !! (i + 1) with
  | Some next => MatchData.matchStart next
  | None => length text
  end.

(** Whether the coordinate text of a match parses to exactly four numbers. *)
Definition fourNumbers (m : MatchData.t) : Prop :=
  length (parseCoords (MatchData.coords m)) = 4.

Global Instance fourNumbers_dec m : Decision (fourNumbers m).
Proof. unfold fourNumbers. apply _. Defined.

(** The part of a box that depends on its own match only. *)
Definition sameRegion (b1 b2 : box) : Prop :=
  content b1 = content b2 ∧ isType b1 = isType b2 ∧ type b1 = type b2
  ∧ x1 b1 = x1 b2 ∧ y1 b1 = y1 b2 ∧ x2 b1 = x2 b2 ∧ y2 b1 = y2 b2.

(** Stream snapshots delivered by successive poll ticks, each one extending
    the one before ([prev] is the snapshot before the first). *)
Fixpoint growingStream (prev : jsstring) (snapshots : list jsstring) : Prop :=
  match snapshots with
  | [] => True
  | s :: rest => prev `prefix_of` s ∧ growingStream s rest
  end.

(** The last raw match of the stream yields a box. *)
Definition lastMatchDecodes (text : jsstring) : Prop :=
  ∃ m, last (collectMatches text) = Some m ∧ fourNumbers m.

(** What a box takes from its own raw match: the trimmed label, the
    category test and the four numbers. *)
Definition decodesTo (m : MatchData.t) (b : box) : Prop :=
  content b = MatchData.content m
  ∧ isType b = bool_decide (MatchData.content m ∈ KNOWN_TYPES)
  ∧ type b = (if isType b then MatchData.content m else js "text")
  ∧ parseCoords (MatchData.coords m) = [x1 b; y1 b; x2 b; y2 b].

(** A raw match whose label is literal content, not a category name. *)
Definition literalContent (m : MatchData.t) : Prop :=
  MatchData.content m ∉ KNOWN_TYPES.

(** The rectangle of a painted group. *)
Definition geometry (g : svgGroup) : float * float * float * float :=
  (rectX g, rectY g, rectWidth g, rectHeight g).

(** A string that neither starts nor ends with white space. *)
Definition trimmed (s : jsstring) : Prop :=
  (∀ c, head s = Some c → isWhiteSpace c = false)
  ∧ (∀ c, last s = Some c → isWhiteSpace c = false).

(** What the overlay holds during a run whose latest snapshot is [s]: the
    paint of boxes that have the regions of the decode of [s]. *)
Definition paintedFor (w h : float) (mode : option jsstring)
    (s : jsstring) (st : overlay) : Prop :=
  ∃ bs, children st = paintBox w h mode <$> bs
        ∧ lastBoxCount st = length bs
        ∧ Forall2 sameRegion bs (parseBoxesFromTokens s false).

(** An image reference of the Markdown result, [![alt](images/name)], and
    what it is rewritten to for display. *)
Definition imageRef (alt name : jsstring) : jsstring :=
  js "![" ++ alt ++ js "](images/" ++ name ++ js ")".

Definition imageUrlRef (API_BASE_URL cacheBuster alt name : jsstring)
    : jsstring :=
  js "![" ++ alt ++ js "](" ++ API_BASE_URL ++ js "/outputs/images/" ++ name
    ++ js "?t=" ++ cacheBuster ++ js ")".

(** [text] holds the image reference at some place, with an alternative text
    free of []] and a non-empty name free of [)]. *)
Definition refersTo (text alt name : jsstring) : Prop :=
  ∃ pre rest, text = pre ++ imageRef alt name ++ rest
              ∧ (93%N ∉ alt) ∧ name ≠ [] ∧ (41%N ∉ name).

Definition shiftMatch (d : nat) (m : nat * list jsstring * nat)
    : nat * list jsstring * nat :=
  (d + m.1.1, m.1.2, m.2).


(** The rectangles of the [strokeRect] calls, one for each box drawn. *)
Definition strokedRects (calls : list canvasCall)
    : list (float * float * float * float) :=
  calls ≫= λ call,
    match call with
    | StrokeRect x y w h => [(x, y, w, h)]
    | _ => []
    end.

(** What the overlay and the canvas share for one box: the rectangle of the
    painted group, filled and stroked, then the label at the place of the
    overlay's label background, as wide as [labelWidth] says. *)
Definition drawnAs (labelWidth : jsstring → float) (g : svgGroup)
    (label : float * float * nat * nat) : list canvasCall :=
  let '(labelX, labelY, _, _) := label in
  [ FillRect (rectX g) (rectY g) (rectWidth g) (rectHeight g);
    StrokeRect (rectX g) (rectY g) (rectWidth g) (rectHeight g);
    FillRect labelX labelY (labelWidth (displayText g) + 8)%float 18;
    FillText (displayText g) (labelX + 4)%float (labelY + 13)%float ].

(** * Properties *)

(** ** The primitives on small inputs *)

Example trim_both_ends : trim (js "  a b ") = js "a b".
Proof. reflexivity. Qed.

Example split_keeps_empty_tokens :
  split 44 (js "1, 2,,3") = [js "1"; js " 2"; []; js "3"].
Proof. reflexivity. Qed.

Example parseFloat_numbers :
  parseFloat (js "999") = 999%float ∧ parseFloat (js "12.5") = 12.5%float
  ∧ parseFloat (js "-.5") = (-0.5)%float ∧ parseFloat (js "1e3") = 1000%float
  ∧ parseFloat (js "7px") = 7%float.
Proof. repeat split; reflexivity. Qed.

Example parseFloat_not_a_number :
  isNaN (parseFloat (js "abc")) = true ∧ isNaN (parseFloat []) = true
  ∧ isNaN (parseFloat (js ".")) = true.
Proof. repeat split; reflexivity. Qed.

Example refDetRegex_example :
  rxMatch refDetRegex (js "<|ref|>a<|/ref|><|det|>[[1,2]]<|/det|>tail")
  = Some ([js "a"; js "1,2"], 38).
Proof. reflexivity. Qed.

(** ** The painter *)


(** C9: a paint call whose target width is zero or unset, or whose target
    height is zero or unset, or whose annotation list is empty, returns
    normally and leaves the overlay (children, coordinate frame and render
    cursor) exactly as it was. *)
Theorem renderBoxes_noop boxes w h mode st :
  unsetOrZero w ∨ unsetOrZero h ∨ boxes = [] →
  renderBoxes boxes w h mode st = st.
Proof.
  unfold renderBoxes. intros [Hw|[Hh| ->]].
  - destruct w as [w|]; simpl in *; [|done].
    unfold truthyNumber. by rewrite Hw.
  - destruct h as [h|]; simpl in *; [|by rewrite orb_true_r].
    unfold truthyNumber. rewrite Hh. by rewrite orb_true_r.
  - by rewrite orb_true_r.
Qed.

Lemma renderBoxes_noop_witness :
  renderBoxes [] (Some 800%float) (Some 0%float) None (mkOverlay None [] 3)
  = mkOverlay None [] 3.
Proof. apply renderBoxes_noop. right; left. reflexivity. Defined.

Lemma mode_ocr_ne_document : Some (js "ocr") ≠ Some (js "document").
Proof. by vm_compute. Qed.

(** C7: in plain-text-extraction mode (['ocr']) a box is interactive iff it
    is not a type label, and its copy payload is its label; in
    structured-document mode (['document']) it is interactive iff it is a
    type label, is final and has non-empty trailing text, and its copy
    payload is the trailing text; in any other mode it is not interactive.
    So a type label that is final with trailing text "Body" is not
    interactive in ['ocr'] mode and is interactive, with payload "Body", in
    ['document'] mode. *)
Theorem interactivity_by_mode (w h : float) (b : box) :
  (isClickable (paintBox w h (Some (js "ocr")) b) = negb (isType b)
   ∧ copyText (paintBox w h (Some (js "ocr")) b) = content b)
  ∧ (isClickable (paintBox w h (Some (js "document")) b)
       = isType b && isComplete b && bool_decide (textContent b ≠ [])
     ∧ copyText (paintBox w h (Some (js "document")) b) = textContent b)
  ∧ (∀ mode, mode ≠ Some (js "ocr") → mode ≠ Some (js "document") →
       isClickable (paintBox w h mode b) = false)
  ∧ (isType b = true → isComplete b = true → textContent b = js "Body" →
       isClickable (paintBox w h (Some (js "ocr")) b) = false
       ∧ isClickable (paintBox w h (Some (js "document")) b) = true
       ∧ copyText (paintBox w h (Some (js "document")) b) = js "Body").
Proof.
  assert (Hocr : isClickable (paintBox w h (Some (js "ocr")) b)
                 = negb (isType b)
                 ∧ copyText (paintBox w h (Some (js "ocr")) b) = content b).
  { unfold paintBox. destruct (scaleBox b w h) as [[[??]?]?].
    rewrite decide_True by done. simpl. by rewrite andb_true_r. }
  assert (Hdoc : isClickable (paintBox w h (Some (js "document")) b)
                 = isType b && isComplete b && bool_decide (textContent b ≠ [])
                 ∧ copyText (paintBox w h (Some (js "document")) b)
                   = textContent b).
  { unfold paintBox. destruct (scaleBox b w h) as [[[??]?]?].
    rewrite decide_False by (intros ?; by apply mode_ocr_ne_document).
    rewrite decide_True by done. simpl.
    rewrite andb_true_r. split; [|done]. f_equal.
    apply bool_decide_ext. destruct (textContent b); simpl; split; (done || lia). }
  split; [done|]. split; [done|]. split.
  - intros mode H1 H2. unfold paintBox.
    destruct (scaleBox b w h) as [[[??]?]?].
    by rewrite !decide_False by done.
  - intros Ht Hc Htext. destruct Hocr as [-> _]. destruct Hdoc as [-> ->].
    rewrite Ht, Hc, Htext. by vm_compute.
Qed.

Lemma interactivity_by_mode_witness :
  let b := mkBox (js "title") (js "Body") true (js "title")
             0%float 0%float 10%float 10%float true in
  isClickable (paintBox 800 600 (Some (js "ocr")) b) = false
  ∧ isClickable (paintBox 800 600 (Some (js "document")) b) = true
  ∧ copyText (paintBox 800 600 (Some (js "document")) b) = js "Body".
Proof.
  intros b.
  apply (proj2 (proj2 (proj2 (interactivity_by_mode 800 600 b))));
    reflexivity.
Defined.

(** An empty list paints nothing. *)
Lemma renderBoxes_empty w h mode st : renderBoxes [] w h mode st = st.
Proof. unfold renderBoxes. by rewrite orb_true_r. Qed.

(** What a paint call that passes the guard does to the overlay. *)
Lemma renderBoxes_paints boxes (w h : float) mode st :
  truthyNumber w = true → truthyNumber h = true → boxes ≠ [] →
  renderBoxes boxes (Some w) (Some h) mode st
  = mkOverlay (match viewBox st with None => Some (w, h) | Some v => Some v end)
      (children st ++ (paintBox w h mode <$> drop (lastBoxCount st) boxes))
      (length boxes).
Proof.
  intros Hw Hh Hb. unfold renderBoxes. simpl. rewrite Hw, Hh. simpl.
  rewrite bool_decide_eq_false_2; [done|].
  by destruct boxes.
Qed.

(** C4: every coordinate of a box is scaled on its own by
    [(model / 999) * target extent], whatever its value (nothing is clamped
    and no box is rejected): this is the geometry of every group
    [renderBoxes] paints and of every rectangle [viewBoxesImage] draws. The
    box (0, 0, 999, 999) on an 800 by 600 surface maps exactly to
    (0, 0, 800, 600), and a coordinate beyond 999 scales past the edge. *)
Theorem coordinate_mapping (w h : float) :
  (∀ b, scaleBox b w h
        = ((x1 b / 999) * w, (y1 b / 999) * h,
           (x2 b / 999) * w, (y2 b / 999) * h)%float)
  ∧ (∀ boxes mode st i b,
       truthyNumber w = true → truthyNumber h = true →
       drop (lastBoxCount st) boxes !! i = Some b →
       ∃ g, children (renderBoxes boxes (Some w) (Some h) mode st)
              !! (length (children st) + i) = Some g
            ∧ rectX g = ((x1 b / 999) * w)%float
            ∧ rectY g = ((y1 b / 999) * h)%float
            ∧ rectWidth g = ((x2 b / 999) * w - (x1 b / 999) * w)%float
            ∧ rectHeight g = ((y2 b / 999) * h - (y1 b / 999) * h)%float)
  ∧ (∀ tokens, tokens ≠ [] →
       viewBoxesImage (Some tokens) w h
       = (λ b, (((x1 b / 999) * w)%float, ((y1 b / 999) * h)%float,
                ((x2 b / 999) * w - (x1 b / 999) * w)%float,
                ((y2 b / 999) * h - (y1 b / 999) * h)%float))
           <$> parseBoxesFromTokens tokens true)
  ∧ (∀ b, x1 b = 0%float → y1 b = 0%float →
          x2 b = 999%float → y2 b = 999%float →
          scaleBox b 800 600 = (0, 0, 800, 600)%float)
  ∧ (∀ b, x1 b = (-999)%float → y1 b = 0%float →
          x2 b = 1998%float → y2 b = 999%float →
          scaleBox b 800 600 = (-800, 0, 1600, 600)%float).
Proof.
  split; [done|]. split; [|split; [|split]].
  - intros boxes mode st i b Hw Hh Hi.
    assert (boxes ≠ []) as Hne by (intros ->; by rewrite drop_nil in Hi).
    rewrite renderBoxes_paints by done. simpl.
    exists (paintBox w h mode b). split.
    + rewrite lookup_app_r by lia.
      replace (length (children st) + i - length (children st)) with i by lia.
      by rewrite list_lookup_fmap, Hi.
    + unfold paintBox, scaleBox.
      by repeat case_decide.
  - intros [|c tokens] Hne; [done|]. reflexivity.
  - intros b H1 H2 H3 H4. unfold scaleBox. by rewrite H1, H2, H3, H4.
  - intros b H1 H2 H3 H4. unfold scaleBox. by rewrite H1, H2, H3, H4.
Qed.

Lemma coordinate_mapping_witness :
  let b := mkBox (js "table") [] true (js "table")
             0%float 0%float 999%float 999%float false in
  scaleBox b 800 600 = (0, 0, 800, 600)%float
  ∧ ∃ g, children (renderBoxes [b] (Some 800%float) (Some 600%float)
                     (Some (js "document")) clearOverlay) !! (0 + 0) = Some g
         ∧ rectX g = 0%float ∧ rectY g = 0%float
         ∧ rectWidth g = 800%float ∧ rectHeight g = 600%float.
Proof.
  intros b. split.
  - apply (coordinate_mapping 800 600); reflexivity.
  - apply (proj1 (proj2 (coordinate_mapping 800 600))
             [b] (Some (js "document")) clearOverlay 0 b); reflexivity.
Defined.


Lemma last_cons_default {A} (r : list A) : ∀ a x,
  default a (last (x :: r)) = default x (last r).
Proof.
  induction r as [|y r IH]; intros a x; [done|].
  rewrite last_cons_cons. by rewrite !(IH _ y).
Qed.


Lemma paintAll_growing (w h : float) mode lists : ∀ prev st,
  truthyNumber w = true → truthyNumber h = true →
  children st = paintBox w h mode <$> prev →
  lastBoxCount st = length prev →
  growingLists prev lists →
  children (paintAll w h mode lists st)
    = paintBox w h mode <$> default prev (last lists)
  ∧ lastBoxCount (paintAll w h mode lists st)
    = length (default prev (last lists)).
Proof.
  induction lists as [|l rest IH]; intros prev st Hw Hh Hc Hn Hg; [done|].
  destruct Hg as [[k ->] Hg]. simpl.
  rewrite last_cons_default.
  apply IH; try done.
  - destruct (decide (prev ++ k = [])) as [He|Hne].
    + rewrite He, renderBoxes_empty.
      apply app_eq_nil in He as [-> ->]. by rewrite Hc.
    + rewrite renderBoxes_paints by done. simpl.
      rewrite Hn, drop_app_length, Hc. by rewrite fmap_app.
  - destruct (decide (prev ++ k = [])) as [He|Hne].
    + rewrite He, renderBoxes_empty.
      apply app_eq_nil in He as [-> ->]. by rewrite Hn.
    + by rewrite renderBoxes_paints by done.
Qed.

Lemma last_cons_default_fmap {A B} (f : A → B) (r : list A) : ∀ a x,
  default a (f <$> last (x :: r)) = default (f x) (f <$> last r).
Proof.
  induction r as [|y r IH]; intros a x; [done|].
  rewrite last_cons_cons. by rewrite !(IH _ y).
Qed.

Lemma paintAll_count (w h : float) mode lists : ∀ st,
  truthyNumber w = true → truthyNumber h = true →
  length (children st) = lastBoxCount st →
  growingLengths (lastBoxCount st) lists →
  length (children (paintAll w h mode lists st))
    = default (lastBoxCount st) (length <$> last lists)
  ∧ lastBoxCount (paintAll w h mode lists st)
    = default (lastBoxCount st) (length <$> last lists).
Proof.
  induction lists as [|l rest IH]; intros st Hw Hh Hc Hg; [done|].
  destruct Hg as [Hle Hg]. cbn [paintAll foldl].
  fold (paintAll w h mode rest (renderBoxes l (Some w) (Some h) mode st)).
  assert (lastBoxCount (renderBoxes l (Some w) (Some h) mode st) = length l
          ∧ length (children (renderBoxes l (Some w) (Some h) mode st))
            = length l) as [Hn' Hc'].
  { destruct (decide (l = [])) as [->|Hne].
    - rewrite renderBoxes_empty. simpl in *. lia.
    - rewrite renderBoxes_paints by done. simpl.
      rewrite length_app, length_fmap, length_drop. lia. }
  destruct (IH (renderBoxes l (Some w) (Some h) mode st)) as [IH1 IH2];
    try done; [by rewrite Hc'|by rewrite Hn'|].
  by rewrite IH1, IH2, Hn', last_cons_default_fmap.
Qed.

(** C5: a paint call with non-zero target dimensions and a non-empty list
    paints exactly the slice of the list from the cursor on, after what is
    already painted, and then sets the cursor to the length of the list.
    Hence after any number of calls on a freshly cleared overlay, with lists
    that each extend the previous one, the painted groups are the final list
    painted once each, in order: none twice, none missing. When the lists
    only grow in length, there are still as many painted groups as the
    final list has annotations. *)
Theorem incremental_paint (w h : float) (mode : option jsstring) :
  truthyNumber w = true → truthyNumber h = true →
  (∀ boxes st, boxes ≠ [] →
     children (renderBoxes boxes (Some w) (Some h) mode st)
       = children st ++ (paintBox w h mode <$> drop (lastBoxCount st) boxes)
     ∧ lastBoxCount (renderBoxes boxes (Some w) (Some h) mode st)
       = length boxes)
  ∧ (∀ lists, growingLists [] lists →
       children (paintAll w h mode lists clearOverlay)
         = paintBox w h mode <$> default [] (last lists)
       ∧ length (children (paintAll w h mode lists clearOverlay))
         = length (default [] (last lists)))
  ∧ (∀ lists, growingLengths 0 lists →
       length (children (paintAll w h mode lists clearOverlay))
       = length (default [] (last lists))).
Proof.
  intros Hw Hh. split_and!.
  - intros boxes st Hne. by rewrite renderBoxes_paints.
  - intros lists Hg.
    destruct (paintAll_growing w h mode lists [] clearOverlay) as [Hc _];
      try done.
    split; [done|]. by rewrite Hc, length_fmap.
  - intros lists Hg.
    destruct (paintAll_count w h mode lists clearOverlay) as [Hc _];
      try done.
    rewrite Hc. simpl. by destruct (last lists).
Qed.

Lemma incremental_paint_witness :
  let a := mkBox (js "title") (js "Hi") true (js "title")
             0%float 0%float 10%float 10%float true in
  let b := mkBox (js "abc") [] false (js "text")
             5%float 5%float 20%float 20%float false in
  children (paintAll 800 600 (Some (js "ocr")) [[]; [a]; [a]; [a; b]]
              clearOverlay)
  = paintBox 800 600 (Some (js "ocr")) <$> [a; b].
Proof.
  intros a b.
  apply (proj1 (proj2 (incremental_paint 800 600 (Some (js "ocr"))
                         eq_refl eq_refl))
           [[]; [a]; [a]; [a; b]]).
  simpl. repeat split; apply prefix_nil || (by eexists [_]) || done.
Defined.

(** A paint call never brings the cursor back to zero: it either leaves it
    alone or sets it to the length of a non-empty list. *)
Lemma renderBoxes_cursor_nonzero boxes w h mode st :
  lastBoxCount st ≠ 0 → lastBoxCount (renderBoxes boxes w h mode st) ≠ 0.
Proof.
  intros Hst. unfold renderBoxes.
  destruct (falsy w || falsy h) eqn:Hf; simpl; [done|].
  case_bool_decide; [done|]. done.
Qed.

(** ** List and string primitives *)

Section Primitives.
Context {A : Type}.
Implicit Types (p : A → bool) (l : list A).

Lemma takeWhile_dropWhile p l : takeWhile p l ++ dropWhile p l = l.
Proof.
  induction l as [|x l IH]; simpl; [done|].
  destruct (p x); simpl; [by rewrite IH|done].
Qed.

Lemma takeWhile_Forall p l : Forall (λ x, p x = true) (takeWhile p l).
Proof.
  induction l as [|x l IH]; simpl; [constructor|].
  destruct (p x) eqn:Hx; by constructor.
Qed.

Lemma takeWhile_stop p l x r :
  Forall (λ y, p y = true) l → p x = false →
  takeWhile p (l ++ x :: r) = l.
Proof.
  induction 1 as [|y l Hy _ IH]; intros Hx; simpl.
  - by rewrite Hx.
  - by rewrite Hy, IH.
Qed.

Lemma takeWhile_length p l : length (takeWhile p l) ≤ length l.
Proof.
  rewrite <- (takeWhile_dropWhile p l) at 2. rewrite length_app. lia.
Qed.

Lemma take_takeWhile p l k :
  k ≤ length (takeWhile p l) → take k l = take k (takeWhile p l).
Proof.
  intros Hk. rewrite <- (takeWhile_dropWhile p l) at 1.
  by rewrite take_app_le.
Qed.
End Primitives.

Lemma startsWith_spec p s : startsWith p s = true ↔ ∃ r, s = p ++ r.
Proof.
  revert s. induction p as [|a p IH]; intros s; simpl.
  - split; [by exists s|done].
  - destruct s as [|b s]; [split; [done|by intros [? ?]]|].
    rewrite andb_true_iff, N.eqb_eq, IH. split.
    + intros [-> [r ->]]. by exists r.
    + intros [r [= -> ->]]. eauto.
Qed.

(** ** The regular expression matcher *)

Lemma backtrack_Some cont s k caps n :
  backtrack cont s k = Some (caps, n) →
  ∃ j caps' n', 1 ≤ j ≤ k ∧ cont (drop j s) = Some (caps', n')
                ∧ caps = take j s :: caps' ∧ n = j + n'.
Proof.
  induction k as [|k IH]; simpl; [done|].
  destruct (cont (drop (S k) s)) as [[caps' n']|] eqn:Hc.
  - intros [= <- <-]. exists (S k), caps', n'. repeat split; (lia || done).
  - intros (j & c & m & ? & ? & ? & ?)%IH. exists j, c, m.
    repeat split; (lia || done).
Qed.

Lemma backtrack_first cont s k caps n :
  0 < k → cont (drop k s) = Some (caps, n) →
  backtrack cont s k = Some (take k s :: caps, k + n).
Proof. destruct k; [lia|]. intros _ Hc. simpl. by rewrite Hc. Qed.

Lemma rxMatch_Lit l p s caps n :
  rxMatch (Lit l :: p) s = Some (caps, n)
  ↔ ∃ r n', s = l ++ r ∧ rxMatch p r = Some (caps, n') ∧ n = length l + n'.
Proof.
  simpl. destruct (startsWith l s) eqn:Hs.
  - apply startsWith_spec in Hs as [r ->]. rewrite drop_app_length. split.
    + destruct (rxMatch p r) as [[c m]|] eqn:Hm; [|done].
      intros [= <- <-]. by exists r, m.
    + intros (r' & n' & <-%app_inv_head & -> & ->). done.
  - split; [done|]. intros (r & n' & -> & _).
    assert (startsWith l (l ++ r) = true) by (apply startsWith_spec; eauto).
    congruence.
Qed.

(** A negated class followed by a literal that starts with the excluded
    character: the group takes everything up to the first occurrence of that
    character, and nothing else can match. *)
Lemma rxMatch_Group c l p s caps n :
  rxMatch (GroupNotPlus c :: Lit (c :: l) :: p) s = Some (caps, n)
  ↔ ∃ g r caps' n',
      s = g ++ c :: r ∧ g ≠ [] ∧ (c ∉ g)
      ∧ rxMatch (Lit (c :: l) :: p) (c :: r) = Some (caps', n')
      ∧ caps = g :: caps' ∧ n = length g + n'.
Proof.
  change (rxMatch (GroupNotPlus c :: Lit (c :: l) :: p) s)
    with (backtrack (rxMatch (Lit (c :: l) :: p)) s
            (length (takeWhile (λ x, negb (x =? c)%N) s))).
  set (run := takeWhile (λ x, negb (x =? c)%N) s).
  split.
  - intros (j & caps' & n' & Hj & Hc & -> & ->)%backtrack_Some.
    pose proof Hc as (r & m & Hd & _)%rxMatch_Lit.
    exists (take j s), (l ++ r), caps', n'.
    pose proof (takeWhile_length (λ x, negb (x =? c)%N) s).
    repeat split.
    + rewrite <- (take_drop j s) at 1. by rewrite Hd.
    + intros Ht. apply (f_equal length) in Ht.
      rewrite length_take in Ht. simpl in Ht. fold run in H. lia.
    + rewrite (take_takeWhile (λ x, negb (x =? c)%N)) by (fold run; lia).
      intros Hin%elem_of_take.
      destruct Hin as (i & Hi & _).
      pose proof (takeWhile_Forall (λ x, negb (x =? c)%N) s) as HF.
      rewrite Forall_lookup in HF. specialize (HF _ _ Hi). simpl in HF.
      by rewrite N.eqb_refl in HF.
    + change (c :: l ++ r) with ((c :: l) ++ r). by rewrite <- Hd.
    + rewrite length_take. fold run in H. lia.
  - intros (g & r & caps' & n' & -> & Hg & Hc & Hm & -> & ->).
    assert (run = g) as Hrun.
    { unfold run. apply takeWhile_stop; [|by rewrite N.eqb_refl].
      apply Forall_forall. intros x Hx. apply negb_true_iff, N.eqb_neq.
      by intros ->. }
    rewrite Hrun.
    rewrite (backtrack_first _ _ _ caps' n').
    + by rewrite take_app_length.
    + destruct g; [done|simpl; lia].
    + by rewrite drop_app_length.
Qed.


Lemma taggedRegion_length label coordsText :
  length (taggedRegion label coordsText)
  = 34 + length label + length coordsText.
Proof.
  unfold taggedRegion. rewrite !length_app.
  change (length (js "<|ref|>")) with 7.
  change (length (js "<|/ref|><|det|>[[")) with 17.
  change (length (js "]]<|/det|>")) with 10. lia.
Qed.

(** What [refDetRegex] matches at the start of a string: exactly one tagged
    region whose label is non-empty and free of [<] and whose coordinate
    text is non-empty and free of []]; the captures are these two texts. *)
Lemma refDet_match s caps n :
  rxMatch refDetRegex s = Some (caps, n)
  ↔ ∃ label coordsText rest,
      s = taggedRegion label coordsText ++ rest
      ∧ caps = [label; coordsText]
      ∧ n = length (taggedRegion label coordsText)
      ∧ label ≠ [] ∧ (60%N ∉ label)
      ∧ coordsText ≠ [] ∧ (93%N ∉ coordsText).
Proof.
  split.
  - unfold refDetRegex, taggedRegion.
    change (js "<|/ref|><|det|>[[") with (60%N :: js "|/ref|><|det|>[[").
    change (js "]]<|/det|>") with (93%N :: js "]<|/det|>").
    intros (r1 & n1 & -> & H1 & ->)%rxMatch_Lit.
    apply rxMatch_Group in H1 as (g1 & r2 & c1 & n2 & -> & ? & ? & H2 & -> & ->).
    apply rxMatch_Lit in H2 as (r3 & n3 & Hr3 & H3 & ->).
    apply rxMatch_Group in H3 as (g2 & r4 & c2 & n4 & -> & ? & ? & H4 & -> & ->).
    apply rxMatch_Lit in H4 as (r5 & n5 & Hr5 & H5 & ->).
    simpl in H5. injection H5 as <- <-.
    exists g1, g2, r5. rewrite Hr3, Hr5.
    repeat split; try done.
    + by rewrite <- !app_assoc.
    + rewrite !length_app. simpl. lia.
  - intros (label & coordsText & rest & -> & -> & -> & ? & ? & ? & ?).
    rewrite taggedRegion_length. unfold refDetRegex, taggedRegion.
    change (js "<|/ref|><|det|>[[") with (60%N :: js "|/ref|><|det|>[[").
    change (js "]]<|/det|>") with (93%N :: js "]<|/det|>").
    rewrite <- !app_assoc.
    apply rxMatch_Lit. eexists _, (27 + length label + length coordsText).
    split; [done|]. split; [|simpl; lia].
    apply rxMatch_Group.
    eexists label, _, [coordsText], (27 + length coordsText).
    split; [done|]. do 2 (split; [done|]). split; [|split; [done|lia]].
    apply rxMatch_Lit. eexists _, (10 + length coordsText).
    split; [done|]. split; [|simpl; lia].
    apply rxMatch_Group. eexists coordsText, _, [], 10.
    split; [done|]. do 2 (split; [done|]). split; [|split; [done|lia]].
    apply rxMatch_Lit. eexists rest, 0. split; [done|]. by split.
Qed.

Lemma refDet_match_app u t caps n :
  rxMatch refDetRegex u = Some (caps, n) →
  rxMatch refDetRegex (u ++ t) = Some (caps, n).
Proof.
  rewrite !refDet_match. intros (l & c & rest & -> & ?).
  exists l, c, (rest ++ t). by rewrite <- app_assoc.
Qed.

Lemma refDet_match_restrict u t caps n :
  rxMatch refDetRegex (u ++ t) = Some (caps, n) → n ≤ length u →
  rxMatch refDetRegex u = Some (caps, n).
Proof.
  rewrite !refDet_match. intros (l & c & rest & Hu & Hc & -> & ?) Hn.
  exists l, c, (drop (length (taggedRegion l c)) u). split; [|done].
  rewrite <- (take_drop (length (taggedRegion l c)) u) at 1. f_equal.
  apply (f_equal (take (length (taggedRegion l c)))) in Hu.
  by rewrite take_app_le, take_app_length in Hu.
Qed.

Lemma lookup_app_notin (l1 l2 : jsstring) k c :
  c ∉ l1 → k < length l1 → (l1 ++ l2) !! k ≠ Some c.
Proof.
  intros Hc Hk. rewrite lookup_app_l by done.
  intros Hl. apply Hc. by eapply list_elem_of_lookup_2.
Qed.

Lemma taggedRegion_split l c rest :
  taggedRegion l c ++ rest
  = (60%N :: js "|ref|>" ++ l)
      ++ (js "<|/ref|><|det|>[[" ++ c) ++ 93%N :: js "]<|/det|>" ++ rest.
Proof.
  unfold taggedRegion.
  change (js "<|ref|>") with (60%N :: js "|ref|>").
  change (js "]]<|/det|>") with (93%N :: js "]<|/det|>").
  by rewrite <- !app_assoc.
Qed.

(** Where [<] and []] occur in a matched region: a [<] at its start and no
    other up to the end of the label; no []] from there up to the two that
    close the coordinates. *)
Lemma refDet_positions text i caps n :
  rxMatch refDetRegex (drop i text) = Some (caps, n) →
  ∃ p, 34 ≤ n ∧ p + 10 ≤ n ∧ i + n ≤ length text
       ∧ text !! i = Some 60%N
       ∧ (∀ k, i < k < i + p → text !! k ≠ Some 60%N)
       ∧ (∀ k, i + p ≤ k < i + n - 10 → text !! k ≠ Some 93%N)
       ∧ text !! (i + n - 10) = Some 93%N.
Proof.
  intros (l & c & rest & Hd & _ & -> & _ & Hl & _ & Hc)%refDet_match.
  rewrite taggedRegion_length.
  assert (i + (34 + length l + length c) ≤ length text).
  { apply (f_equal length) in Hd.
    rewrite length_drop, length_app, taggedRegion_length in Hd. lia. }
  rewrite taggedRegion_split in Hd.
  assert (∀ m, text !! (i + m) = drop i text !! m) as Hlook.
  { intros m. by rewrite lookup_drop. }
  rewrite Hd in Hlook.
  assert (length (60%N :: js "|ref|>" ++ l) = 7 + length l) as Hlen1.
  { rewrite List.length_cons, length_app.
    change (length (js "|ref|>")) with 6. lia. }
  assert (length (js "<|/ref|><|det|>[[" ++ c) = 17 + length c) as Hlen2.
  { rewrite length_app. by change (length (js "<|/ref|><|det|>[[")) with 17. }
  exists (7 + length l). do 3 (split; [lia|]). repeat split.
  - specialize (Hlook 0). by rewrite Nat.add_0_r in Hlook.
  - intros k Hk. replace k with (i + S (k - i - 1)) by lia. rewrite Hlook.
    rewrite <- app_comm_cons, lookup_cons. apply lookup_app_notin.
    + rewrite elem_of_app. intros [Hin|Hin]; [|done].
      revert Hin. apply (bool_decide_unpack _). by vm_compute.
    + rewrite List.length_cons in Hlen1. lia.
  - intros k Hk. replace k with (i + (k - i)) by lia. rewrite Hlook.
    rewrite lookup_app_r by lia. apply lookup_app_notin.
    + rewrite elem_of_app. intros [Hin|Hin]; [|done].
      revert Hin. apply (bool_decide_unpack _). by vm_compute.
    + lia.
  - replace (i + (34 + length l + length c) - 10)
      with (i + (24 + length l + length c)) by lia.
    rewrite Hlook. rewrite lookup_app_r by lia. rewrite lookup_app_r by lia.
    by replace (24 + length l + length c - length (60%N :: js "|ref|>" ++ l)
                - length (js "<|/ref|><|det|>[[" ++ c)) with 0 by lia.
Qed.

(** A match cannot lie strictly inside the extent of an earlier, longer
    one: its opening [<] would have to sit in the other's coordinate text,
    and then its closing []]] too, where no []] occurs. *)
Lemma refDet_no_nested text i j c1 n1 c2 n2 :
  rxMatch refDetRegex (drop i text) = Some (c1, n1) →
  rxMatch refDetRegex (drop j text) = Some (c2, n2) →
  i < j → j + n2 < i + n1 → False.
Proof.
  intros (p & ? & ? & ? & _ & Hlt & Hbr & _)%refDet_positions
         (p' & ? & ? & ? & Hj & _ & _ & Hq)%refDet_positions Hij Hend.
  destruct (decide (j < i + p)) as [Hin|Hout].
  - by apply (Hlt j).
  - apply (Hbr (j + n2 - 10)); [lia|done].
Qed.

(** *** [exec] *)

Lemma execFrom_Some p s : ∀ pos i caps n,
  execFrom p s pos = Some (i, caps, n)
  ↔ ∃ d, i = pos + d ∧ d ≤ length s
         ∧ rxMatch p (drop d s) = Some (caps, n)
         ∧ ∀ d', d' < d → rxMatch p (drop d' s) = None.
Proof.
  assert (∀ (t : jsstring) pos i caps n c m,
            rxMatch p t = Some (c, m) →
            Some (pos, c, m) = Some (i, caps, n)
            ↔ ∃ d, i = pos + d ∧ d ≤ length t
                   ∧ rxMatch p (drop d t) = Some (caps, n)
                   ∧ ∀ d', d' < d → rxMatch p (drop d' t) = None) as Hhit.
  { intros t pos i caps n c m Hm. split.
    - intros [= <- <- <-]. exists 0. rewrite Nat.add_0_r.
      split_and!; [done|lia|done|intros; lia].
    - intros (d & -> & Hd & Hdm & Hbefore). destruct d as [|d].
      + rewrite Nat.add_0_r. rewrite drop_0 in Hdm. congruence.
      + specialize (Hbefore 0). rewrite drop_0 in Hbefore.
        rewrite Hbefore in Hm by lia. done. }
  induction s as [|x s IH]; intros pos i caps n; cbn [execFrom].
  - destruct (rxMatch p []) as [[c m]|] eqn:Hm; [by apply Hhit|].
    split; [done|]. intros (d & -> & Hd & Hdm & _).
    rewrite drop_nil in Hdm. congruence.
  - destruct (rxMatch p (x :: s)) as [[c m]|] eqn:Hm; [by apply Hhit|].
    rewrite IH. split.
    + intros (d & -> & Hd & Hdm & Hbefore). exists (S d).
      split_and!; [lia|simpl; lia|done|].
      intros [|d'] Hd'; [done|]. simpl. apply Hbefore. lia.
    + intros (d & -> & Hd & Hdm & Hbefore).
      destruct d as [|d]; [rewrite drop_0 in Hdm; congruence|].
      exists d. split_and!; [lia|simpl in Hd; lia|done|].
      intros d' Hd'. apply (Hbefore (S d')). lia.
Qed.

Lemma execFrom_None p s : ∀ pos,
  execFrom p s pos = None
  ↔ ∀ d, d ≤ length s → rxMatch p (drop d s) = None.
Proof.
  induction s as [|x s IH]; intros pos; simpl.
  - destruct (rxMatch p []) as [[c m]|] eqn:Hm.
    + split; [done|]. intros H. specialize (H 0). rewrite drop_0 in H.
      rewrite H in Hm by lia. done.
    + split; [|done]. intros _ d _. by rewrite drop_nil.
  - destruct (rxMatch p (x :: s)) as [[c m]|] eqn:Hm.
    + split; [done|]. intros H. specialize (H 0). rewrite drop_0 in H.
      rewrite H in Hm by lia. done.
    + rewrite IH. split.
      * intros H [|d] Hd; [done|]. simpl. apply H. lia.
      * intros H d Hd. apply (H (S d)). lia.
Qed.

(** [exec] returns the first match at or after [lastIndex]. *)
Lemma exec_Some p text lastIndex i caps n :
  exec p text lastIndex = Some (i, caps, n)
  ↔ lastIndex ≤ i ≤ length text
    ∧ rxMatch p (drop i text) = Some (caps, n)
    ∧ ∀ k, lastIndex ≤ k < i → rxMatch p (drop k text) = None.
Proof.
  unfold exec. case_decide as Hle.
  - rewrite execFrom_Some. rewrite length_drop. split.
    + intros (d & -> & Hd & Hm & Hbefore). rewrite drop_drop in Hm.
      split_and!; [lia|lia|done|].
      intros k Hk. specialize (Hbefore (k - lastIndex)).
      rewrite drop_drop in Hbefore.
      replace (lastIndex + (k - lastIndex)) with k in Hbefore by lia.
      apply Hbefore. lia.
    + intros (Hi & Hm & Hbefore). exists (i - lastIndex).
      rewrite drop_drop.
      replace (lastIndex + (i - lastIndex)) with i by lia.
      split_and!; [lia|lia|done|].
      intros d' Hd'. rewrite drop_drop. apply Hbefore. lia.
  - split; [done|]. intros ([? ?] & _). lia.
Qed.

Lemma exec_None p text lastIndex :
  exec p text lastIndex = None
  ↔ ∀ k, lastIndex ≤ k ≤ length text → rxMatch p (drop k text) = None.
Proof.
  unfold exec. case_decide as Hle.
  - rewrite execFrom_None, length_drop. split.
    + intros H k Hk. specialize (H (k - lastIndex)).
      rewrite drop_drop in H.
      replace (lastIndex + (k - lastIndex)) with k in H by lia.
      apply H. lia.
    + intros H d Hd. rewrite drop_drop. apply H. lia.
  - split; [|done]. intros _ k Hk. lia.
Qed.

(** A match found in a stream is found, the same, in every extension of the
    stream. *)
Lemma exec_refDet_app s t lastIndex i caps n :
  exec refDetRegex s lastIndex = Some (i, caps, n) →
  exec refDetRegex (s ++ t) lastIndex = Some (i, caps, n).
Proof.
  rewrite !exec_Some. intros (Hi & Hm & Hbefore).
  pose proof Hm as (_ & _ & _ & Hend & _)%refDet_positions.
  assert (rxMatch refDetRegex (drop i (s ++ t)) = Some (caps, n)) as Hm'.
  { rewrite drop_app_le by lia. by apply refDet_match_app. }
  split_and!; [lia|rewrite length_app; lia|done|].
  intros k Hk.
  destruct (rxMatch refDetRegex (drop k (s ++ t))) as [[c' n']|] eqn:Hk';
    [|done].
  exfalso. destruct (decide (k + n' ≤ length s)) as [Hin|Hout].
  - rewrite drop_app_le in Hk' by lia.
    apply refDet_match_restrict in Hk'; [|rewrite length_drop; lia].
    rewrite Hbefore in Hk' by lia. done.
  - apply (refDet_no_nested (s ++ t) k i c' n' caps n); (done || lia).
Qed.

(** ** The match collection loop *)



Lemma recordsRegion_bounds text m :
  recordsRegion text m →
  MatchData.matchStart m + 36 ≤ MatchData.matchEnd m
  ∧ MatchData.matchEnd m ≤ length text.
Proof.
  intros (l & c & Hl & _ & Hc & _ & He & Hlen & _).
  rewrite taggedRegion_length in He.
  destruct l; [done|]. destruct c; [done|]. simpl in He. lia.
Qed.

Lemma exec_refDet_records text lastIndex i caps n :
  exec refDetRegex text lastIndex = Some (i, caps, n) →
  lastIndex ≤ i
  ∧ recordsRegion text
      (MatchData.mk (trim (caps !!! 0)) (caps !!! 1) i (i + n)).
Proof.
  intros (Hi & Hm & _)%exec_Some. split; [lia|].
  pose proof Hm as (_ & _ & _ & Hend & _)%refDet_positions.
  apply refDet_match in Hm as (l & c & rest & Hd & -> & -> & ? & ? & ? & ?).
  exists l, c. split_and!; try done.
  cbn [MatchData.matchStart]. by rewrite Hd, take_app_length.
Qed.

Lemma collectLoop_matchesFrom fuel text : ∀ lastIndex,
  matchesFrom text lastIndex (collectLoop fuel text lastIndex).
Proof.
  induction fuel as [|fuel IH]; intros lastIndex; simpl; [constructor|].
  destruct (exec refDetRegex text lastIndex) as [[[i caps] n]|] eqn:He;
    [|constructor].
  apply exec_refDet_records in He as [? ?].
  constructor; [done|done|]. apply IH.
Qed.

(** The loop stops by itself: once the fuel exceeds the text left after
    [lastIndex], more fuel changes nothing. *)
Lemma collectLoop_fuel text : ∀ fuel1 fuel2 lastIndex,
  length text < fuel1 + lastIndex → length text < fuel2 + lastIndex →
  collectLoop fuel1 text lastIndex = collectLoop fuel2 text lastIndex.
Proof.
  assert (∀ lastIndex, length text < lastIndex →
            exec refDetRegex text lastIndex = None) as Hpast.
  { intros lastIndex Hlt. unfold exec. by rewrite decide_False by lia. }
  induction fuel1 as [|fuel1 IH]; intros fuel2 lastIndex H1 H2.
  - destruct fuel2; simpl; [done|]. by rewrite Hpast by lia.
  - destruct fuel2; simpl; [by rewrite Hpast by lia|].
    destruct (exec refDetRegex text lastIndex) as [[[i caps] n]|] eqn:He;
      [|done].
    apply exec_Some in He as (Hi & Hm & _).
    apply refDet_positions in Hm as (_ & ? & _).
    f_equal. apply IH; lia.
Qed.

Lemma collectLoop_app fuel s t : ∀ lastIndex,
  collectLoop fuel s lastIndex `prefix_of` collectLoop fuel (s ++ t) lastIndex.
Proof.
  induction fuel as [|fuel IH]; intros lastIndex; simpl; [done|].
  destruct (exec refDetRegex s lastIndex) as [[[i caps] n]|] eqn:He;
    [|apply prefix_nil].
  rewrite (exec_refDet_app _ _ _ _ _ _ He). apply prefix_cons, IH.
Qed.

(** The matches of a stream are the first matches of every extension. *)
Lemma collectMatches_app s t :
  collectMatches s `prefix_of` collectMatches (s ++ t).
Proof.
  unfold collectMatches.
  rewrite (collectLoop_fuel s (S (length s)) (S (length (s ++ t))) 0).
  - apply collectLoop_app.
  - lia.
  - rewrite length_app. lia.
Qed.

Lemma collectMatches_matchesFrom text :
  matchesFrom text 0 (collectMatches text).
Proof. apply collectLoop_matchesFrom. Qed.

Lemma matchesFrom_lookup text ms : ∀ lastIndex i m,
  matchesFrom text lastIndex ms → ms !! i = Some m →
  lastIndex ≤ MatchData.matchStart m ∧ recordsRegion text m
  ∧ ∀ m', ms !! S i = Some m' →
          MatchData.matchEnd m ≤ MatchData.matchStart m'.
Proof.
  induction ms as [|m0 ms IH]; intros lastIndex i m Hms Hi; [done|].
  inversion Hms as [|? ? ? Hle Hrec Hrest]; subst.
  destruct i as [|i]; simpl in Hi.
  - injection Hi as ->. split_and!; [done|done|].
    intros m' Hm'. simpl in Hm'.
    inversion Hrest; subst; [done|]. simpl in Hm'. by injection Hm' as <-.
  - destruct (IH _ _ _ Hrest Hi) as (Hs & ? & ?). split_and!; [|done|done].
    apply recordsRegion_bounds in Hrec. lia.
Qed.

(** The loop misses nothing: wherever the pattern matches, a collected
    match covers that position. *)
Lemma collectLoop_complete text : ∀ fuel lastIndex i caps n,
  length text < fuel + lastIndex → lastIndex ≤ i →
  rxMatch refDetRegex (drop i text) = Some (caps, n) →
  ∃ m, m ∈ collectLoop fuel text lastIndex
       ∧ MatchData.matchStart m ≤ i < MatchData.matchEnd m.
Proof.
  induction fuel as [|fuel IH]; intros lastIndex i caps n Hfuel Hi Hm.
  { apply refDet_positions in Hm as (_ & ? & _ & ? & _). lia. }
  pose proof Hm as (_ & ? & _ & ? & _)%refDet_positions.
  cbn [collectLoop].
  destruct (exec refDetRegex text lastIndex) as [[[i0 caps0] n0]|] eqn:He.
  - apply exec_Some in He as (Hi0 & Hm0 & Hbefore).
    pose proof Hm0 as (_ & ? & _)%refDet_positions.
    assert (i0 ≤ i).
    { destruct (decide (i0 ≤ i)); [done|].
      rewrite Hbefore in Hm by lia. done. }
    destruct (decide (i < i0 + n0)) as [Hin|Hout].
    + eexists. split; [left|]. simpl. lia.
    + destruct (IH (i0 + n0) i caps n) as (m & Hin & ?); [lia|lia|done|].
      exists m. split; [by right|done].
  - rewrite exec_None in He. rewrite He in Hm by lia. done.
Qed.

Lemma collectMatches_complete text i caps n :
  rxMatch refDetRegex (drop i text) = Some (caps, n) →
  ∃ m, m ∈ collectMatches text
       ∧ MatchData.matchStart m ≤ i < MatchData.matchEnd m.
Proof. apply collectLoop_complete; lia. Qed.

Lemma recordsRegion_match text m :
  recordsRegion text m →
  ∃ caps n, MatchData.matchEnd m = MatchData.matchStart m + n
            ∧ rxMatch refDetRegex (drop (MatchData.matchStart m) text)
              = Some (caps, n).
Proof.
  intros (l & c & ? & ? & ? & ? & He & _ & Ht & _).
  exists [l; c], (length (taggedRegion l c)). split; [done|].
  apply refDet_match.
  exists l, c, (drop (length (taggedRegion l c))
                  (drop (MatchData.matchStart m) text)).
  split_and!; try done. by rewrite <- Ht at 1; rewrite take_drop.
Qed.

(** A match of an extension that ends within the stream is a match of the
    stream. *)
Lemma collectLoop_app_within fuel s t : ∀ lastIndex m,
  length s < fuel + lastIndex →
  m ∈ collectLoop fuel (s ++ t) lastIndex →
  MatchData.matchEnd m ≤ length s →
  m ∈ collectLoop fuel s lastIndex.
Proof.
  induction fuel as [|fuel IH]; intros lastIndex m Hfuel Hm Hend.
  { simpl in Hm. by apply elem_of_nil in Hm. }
  cbn [collectLoop] in *.
  destruct (exec refDetRegex s lastIndex) as [[[i caps] n]|] eqn:He.
  - rewrite (exec_refDet_app _ _ _ _ _ _ He) in Hm.
    apply elem_of_cons in Hm as [->|Hm]; [left|right].
    apply IH; [|done|done].
    apply exec_Some in He as (? & (_ & ? & _)%refDet_positions & _). lia.
  - exfalso.
    pose proof (collectLoop_matchesFrom (S fuel) (s ++ t) lastIndex) as Hfrom.
    cbn [collectLoop] in Hfrom.
    apply list_elem_of_lookup in Hm as [j Hj].
    destruct (matchesFrom_lookup _ _ _ _ _ Hfrom Hj) as (Hstart & Hrec & _).
    pose proof Hrec as [? ?]%recordsRegion_bounds.
    apply recordsRegion_match in Hrec as (caps & n & Hn & Hmatch).
    rewrite drop_app_le in Hmatch by lia.
    apply refDet_match_restrict in Hmatch; [|rewrite length_drop; lia].
    rewrite exec_None in He. rewrite He in Hmatch; [done|lia].
Qed.

Lemma collectMatches_app_within s t m :
  m ∈ collectMatches (s ++ t) → MatchData.matchEnd m ≤ length s →
  m ∈ collectMatches s.
Proof.
  unfold collectMatches. intros Hm Hend.
  rewrite (collectLoop_fuel s (S (length s)) (S (length (s ++ t))) 0);
    [|lia|rewrite length_app; lia].
  apply (collectLoop_app_within _ s t); [rewrite length_app; lia|done|done].
Qed.

(** ** [substring] on a stream and its extensions *)

Lemma substring_le (s : jsstring) a b :
  a ≤ b → b ≤ length s → substring s a b = take (b - a) (drop a s).
Proof.
  intros Hab Hb. unfold substring.
  by rewrite (Nat.min_l a), (Nat.min_l b), Nat.max_r, Nat.min_l by lia.
Qed.

Lemma substringFrom_drop (s : jsstring) a :
  a ≤ length s → substringFrom s a = drop a s.
Proof.
  intros Ha. unfold substringFrom. rewrite substring_le by lia.
  apply take_ge. rewrite length_drop. lia.
Qed.

Lemma substring_app (s t : jsstring) a b :
  a ≤ length s → b ≤ length s → substring (s ++ t) a b = substring s a b.
Proof.
  intros Ha Hb. unfold substring. rewrite length_app.
  rewrite (Nat.min_l a (length s + _)), (Nat.min_l b (length s + _)) by lia.
  rewrite (Nat.min_l a (length s)), (Nat.min_l b (length s)) by lia.
  rewrite drop_app_le by lia. apply take_app_le. rewrite length_drop. lia.
Qed.

(** ** The decoder *)


Lemma length_pos_nonEmpty (s : jsstring) :
  bool_decide (0 < length s) = nonEmpty s.
Proof.
  apply bool_decide_ext. destruct s; simpl; split; (done || lia).
Qed.



(** Everything [processMatch] puts in a box. *)
Lemma processMatch_Some text c ms i b :
  processMatch text c ms i = Some b →
  ∃ m, ms !! i = Some m
       ∧ parseCoords (MatchData.coords m) = [x1 b; y1 b; x2 b; y2 b]
       ∧ content b = MatchData.content m
       ∧ isType b = bool_decide (MatchData.content m ∈ KNOWN_TYPES)
       ∧ type b = (if isType b then MatchData.content m else js "text")
       ∧ textContent b
         = trim (substring text (MatchData.matchEnd m)
                   (trailingEnd text ms i))
       ∧ isComplete b
         = (if decide (i + 1 < length ms) then nonEmpty (textContent b)
            else c && nonEmpty (textContent b)).
Proof.
  unfold processMatch. destruct (ms !! i) as [m|] eqn:Hi; [|done]. simpl.
  destruct (parseCoords _) as [|c0 [|c1 [|c2 [|c3 [|]]]]] eqn:Hp; try done.
  pose proof (lookup_lt_Some _ _ _ Hi). unfold trailingEnd.
  case_decide.
  - destruct (ms !! (i + 1)) as [next|] eqn:Hn; [|done]. simpl.
    intros [= <-]. exists m. simpl.
    rewrite decide_True by lia. by rewrite length_pos_nonEmpty.
  - intros [= <-]. exists m. simpl. rewrite lookup_ge_None_2 by lia.
    rewrite decide_False by lia. by rewrite length_pos_nonEmpty.
Qed.

(** A match yields a box exactly when its coordinates parse to four
    numbers. *)
Lemma processMatch_is_Some text c ms i m :
  ms !! i = Some m →
  is_Some (processMatch text c ms i) ↔ fourNumbers m.
Proof.
  intros Hi. unfold fourNumbers. split.
  - intros [b (m' & Hi' & Hp & _)%processMatch_Some].
    assert (m' = m) as -> by congruence. by rewrite Hp.
  - intros Hlen. unfold processMatch. rewrite Hi. simpl.
    destruct (parseCoords _) as [|c0 [|c1 [|c2 [|c3 [|]]]]]; try done.
    pose proof (lookup_lt_Some _ _ _ Hi). case_decide; [|done].
    destruct (lookup_lt_is_Some_2 ms (i + 1)) as [next ->]; [lia|]. done.
Qed.


(** The decoded boxes: those of the matches before the last one, then the
    box of the last match if it has one. *)
Lemma parseBoxes_split text c :
  let ms := collectMatches text in
  parseBoxesFromTokens text c
  = omap (processMatch text c ms) (seq 0 (length ms - 1))
      ++ option_list (processMatch text c ms (length ms - 1)).
Proof.
  intros ms. unfold parseBoxesFromTokens. fold ms.
  destruct (length ms) as [|k] eqn:Hlen.
  - apply length_zero_iff_nil in Hlen. by rewrite Hlen.
  - rewrite seq_S, omap_app. simpl. rewrite Nat.sub_0_r.
    by destruct (processMatch text c ms k).
Qed.

Lemma parseBoxes_front text c b :
  let ms := collectMatches text in
  b ∈ omap (processMatch text c ms) (seq 0 (length ms - 1)) →
  ∃ i, i + 1 < length ms ∧ processMatch text c ms i = Some b.
Proof.
  intros ms (i & Hi & Hb)%list_elem_of_omap.
  apply elem_of_seq in Hi. exists i. split; [lia|done].
Qed.

(** The surviving matches, in order, are those with four numbers. *)
Lemma parseBoxes_filter text c :
  content <$> parseBoxesFromTokens text c
  = MatchData.content <$> filter fourNumbers (collectMatches text).
Proof.
  unfold parseBoxesFromTokens.
  set (ms := collectMatches text).
  assert (∀ suf pre, ms = pre ++ suf →
            content <$> omap (processMatch text c ms)
                          (seq (length pre) (length suf))
            = MatchData.content <$> filter fourNumbers suf) as Hgen.
  { induction suf as [|m suf IH]; intros pre Hms; [done|].
    assert (ms !! length pre = Some m) as Hm.
    { by rewrite Hms, lookup_app_r, Nat.sub_diag by lia. }
    assert (content <$> omap (processMatch text c ms)
                          (seq (S (length pre)) (length suf))
            = MatchData.content <$> filter fourNumbers suf) as Hrest.
    { specialize (IH (pre ++ [m])). rewrite length_app in IH. simpl in IH.
      rewrite Nat.add_1_r in IH. apply IH. by rewrite <- app_assoc. }
    cbn [length seq]. rewrite filter_cons.
    pose proof (processMatch_is_Some text c ms _ _ Hm) as Hiff.
    cbn [omap list_omap]. fold (@omap list _ _ _ (processMatch text c ms)).
    destruct (processMatch text c ms (length pre)) as [b|] eqn:Hb.
    - rewrite decide_True by (apply Hiff; eauto).
      apply processMatch_Some in Hb as (m' & Hm' & _ & Hc & _).
      assert (m' = m) as -> by congruence.
      rewrite !fmap_cons. by rewrite Hc, Hrest.
    - rewrite decide_False; [done|].
      intros Hf. apply Hiff in Hf as [? ?]. done. }
  apply (Hgen ms []). done.
Qed.

(** *** Decoding a stream and an extension of it *)

Section Growth.
Variables (s t : jsstring) (c1 c2 : bool).

Let ms1 := collectMatches s.
Let ms2 := collectMatches (s ++ t).

Lemma growth_lookup i m : ms1 !! i = Some m → ms2 !! i = Some m.
Proof.
  intros Hm. eapply prefix_lookup_Some; [done|apply collectMatches_app].
Qed.

Lemma growth_length : length ms1 ≤ length ms2.
Proof. apply prefix_length, collectMatches_app. Qed.

(** A match that is not the last of [s] yields the very same box. *)
Lemma processMatch_grow_front i :
  i + 1 < length ms1 →
  processMatch s c1 ms1 i = processMatch (s ++ t) c2 ms2 i.
Proof.
  intros Hi. pose proof growth_length as Hlen.
  destruct (lookup_lt_is_Some_2 ms1 i) as [m Hm]; [lia|].
  destruct (lookup_lt_is_Some_2 ms1 (i + 1)) as [m' Hm']; [lia|].
  unfold processMatch.
  rewrite Hm, (growth_lookup _ _ Hm). simpl.
  destruct (parseCoords _) as [|? [|? [|? [|? [|]]]]]; try done.
  rewrite !decide_True by lia.
  rewrite Hm', (growth_lookup _ _ Hm'). simpl.
  pose proof (collectMatches_matchesFrom s) as Hfrom. fold ms1 in Hfrom.
  destruct (matchesFrom_lookup _ _ _ _ _ Hfrom Hm) as (_ & _ & Hnext).
  rewrite Nat.add_1_r in Hm'. specialize (Hnext _ Hm').
  destruct (matchesFrom_lookup _ _ _ _ _ Hfrom Hm')
    as (_ & [? ?]%recordsRegion_bounds & _).
  by rewrite substring_app by lia.
Qed.

(** The last match of [s] yields a box in the extension iff it does in
    [s], for the same region. *)
Lemma processMatch_grow_last i :
  i + 1 = length ms1 →
  match processMatch s c1 ms1 i, processMatch (s ++ t) c2 ms2 i with
  | Some b1, Some b2 => sameRegion b1 b2
  | None, None => True
  | _, _ => False
  end.
Proof.
  intros Hi.
  destruct (lookup_lt_is_Some_2 ms1 i) as [m Hm]; [lia|].
  pose proof (growth_lookup _ _ Hm) as Hm2.
  pose proof (processMatch_is_Some s c1 _ _ _ Hm) as Hiff1.
  pose proof (processMatch_is_Some (s ++ t) c2 _ _ _ Hm2) as Hiff2.
  destruct (processMatch s c1 ms1 i) as [b1|] eqn:Hb1;
    destruct (processMatch (s ++ t) c2 ms2 i) as [b2|] eqn:Hb2.
  - apply processMatch_Some in Hb1
      as (m1 & Hm1 & Hp1 & Hc1 & Ht1 & Hty1 & _).
    apply processMatch_Some in Hb2
      as (m2' & Hm2' & Hp2 & Hc2 & Ht2 & Hty2 & _).
    assert (m1 = m) as -> by congruence.
    assert (m2' = m) as -> by congruence.
    rewrite Hp1 in Hp2. injection Hp2 as ? ? ? ?.
    unfold sameRegion. rewrite Hty1, Hty2, Ht1, Ht2, Hc1, Hc2. done.
  - destruct Hiff2 as [_ Hiff2]. destruct Hiff2; [|done].
    apply Hiff1. eauto.
  - destruct Hiff1 as [_ Hiff1]. destruct Hiff1; [|done].
    apply Hiff2. eauto.
  - done.
Qed.

(** Every box decoded from [s] is still decoded, at the same index, from
    [s ++ t]: unchanged if it is not the last box of [s], and otherwise
    for the same region (label, category and coordinates). *)
Lemma decode_growth i b1 :
  parseBoxesFromTokens s c1 !! i = Some b1 →
  ∃ b2, parseBoxesFromTokens (s ++ t) c2 !! i = Some b2
        ∧ sameRegion b1 b2
        ∧ (i + 1 < length (parseBoxesFromTokens s c1) → b2 = b1).
Proof.
  rewrite (parseBoxes_split s c1). cbn zeta. fold ms1.
  unfold parseBoxesFromTokens at 1. cbn zeta. fold ms2.
  pose proof growth_length as Hlen.
  destruct (length ms1) as [|k] eqn:Hn1.
  { apply length_zero_iff_nil in Hn1. rewrite Hn1. done. }
  replace (length ms2) with (k + (1 + (length ms2 - S k))) by lia.
  rewrite seq_app, omap_app, seq_app, omap_app. simpl.
  rewrite Nat.sub_0_r.
  assert (omap (processMatch (s ++ t) c2 ms2) (seq 0 k)
          = omap (processMatch s c1 ms1) (seq 0 k)) as ->.
  { apply list_omap_ext, Forall_Forall2_diag, Forall_forall.
    intros j Hj%elem_of_seq. symmetry. apply processMatch_grow_front.
    lia. }
  set (front := omap (processMatch s c1 ms1) (seq 0 k)).
  pose proof (processMatch_grow_last k) as Hlast.
  rewrite Hn1 in Hlast. specialize (Hlast ltac:(lia)).
  destruct (processMatch s c1 ms1 k) as [b1'|];
    destruct (processMatch (s ++ t) c2 ms2 k) as [b2'|]; try done; simpl.
  - intros Hi. destruct (decide (i < length front)) as [Hlt|Hge].
    + rewrite lookup_app_l in Hi by done. exists b1.
      rewrite lookup_app_l by done. split; [done|]. by split.
    + rewrite lookup_app_r in Hi by lia.
      destruct (i - length front) as [|?] eqn:Hd; [|done].
      injection Hi as <-. exists b2'. split.
      * rewrite lookup_app_r by lia. by rewrite Hd.
      * split; [done|]. rewrite length_app. simpl. lia.
  - rewrite app_nil_r. intros Hi. exists b1. split.
    + apply lookup_app_l_Some. done.
    + by split.
Qed.

Lemma decode_growth_length :
  length (parseBoxesFromTokens s c1)
  ≤ length (parseBoxesFromTokens (s ++ t) c2).
Proof.
  destruct (decide (parseBoxesFromTokens s c1 = [])) as [->|Hne];
    [simpl; lia|].
  destruct (lookup_lt_is_Some_2 (parseBoxesFromTokens s c1)
              (length (parseBoxesFromTokens s c1) - 1)) as [b Hb].
  { destruct (parseBoxesFromTokens s c1); simpl; [done|lia]. }
  destruct (decode_growth _ _ Hb) as (b2 & Hb2 & _).
  apply lookup_lt_Some in Hb2. lia.
Qed.
End Growth.

(** C8: when a stream grows by appended text, its raw matches stay the
    first raw matches of the longer stream, and they are all the matches of
    the longer stream that end within the old one; every annotation decoded
    before is decoded again at the same index with the same label, category
    and coordinates; it is the very same annotation unless it was the last
    one, whose trailing text and completion flag alone may change. The two
    decodes may use different completion flags. *)
Theorem decode_monotone (s t : jsstring) (c1 c2 : bool) :
  collectMatches s `prefix_of` collectMatches (s ++ t)
  ∧ (∀ m, m ∈ collectMatches (s ++ t) → MatchData.matchEnd m ≤ length s →
          m ∈ collectMatches s)
  ∧ ∀ i b1,
      parseBoxesFromTokens s c1 !! i = Some b1 →
      ∃ b2, parseBoxesFromTokens (s ++ t) c2 !! i = Some b2
            ∧ content b2 = content b1 ∧ isType b2 = isType b1
            ∧ type b2 = type b1
            ∧ x1 b2 = x1 b1 ∧ y1 b2 = y1 b1
            ∧ x2 b2 = x2 b1 ∧ y2 b2 = y2 b1
            ∧ (i + 1 < length (parseBoxesFromTokens s c1) → b2 = b1).
Proof.
  split; [apply collectMatches_app|].
  split; [apply collectMatches_app_within|].
  intros i b1 Hb1.
  destruct (decode_growth s t c1 c2 i b1 Hb1)
    as (b2 & Hb2 & (? & ? & ? & ? & ? & ? & ?) & Heq).
  exists b2. by split_and!.
Qed.

Lemma decode_monotone_witness :
  let s := js "<|ref|>title<|/ref|><|det|>[[0,0,10,10]]<|/det|>Hello" in
  let t := js "<|ref|>text<|/ref|><|det|>[[1,2,3,4]]<|/det|>" in
  let b1 := mkBox (js "title") (js "Hello") true (js "title")
              0%float 0%float 10%float 10%float false in
  parseBoxesFromTokens s false !! 0 = Some b1
  ∧ ∃ b2, parseBoxesFromTokens (s ++ t) false !! 0 = Some b2
          ∧ content b2 = content b1 ∧ isType b2 = isType b1
          ∧ type b2 = type b1
          ∧ x1 b2 = x1 b1 ∧ y1 b2 = y1 b1
          ∧ x2 b2 = x2 b1 ∧ y2 b2 = y2 b1
          ∧ (0 + 1 < length (parseBoxesFromTokens s false) → b2 = b1).
Proof.
  intros s t b1. split; [by vm_compute|].
  apply (proj2 (proj2 (decode_monotone s t false false)) 0 b1).
  by vm_compute.
Defined.


(** ** The processing run *)

Lemma pollTick_cursor (w h : float) mode prev s st :
  prev `prefix_of` s →
  lastBoxCount st ≤ length (parseBoxesFromTokens prev false) →
  lastBoxCount st ≤ lastBoxCount (pollTick w h mode s st)
  ∧ lastBoxCount (pollTick w h mode s st)
    ≤ length (parseBoxesFromTokens s false).
Proof.
  intros [k ->] Hst.
  pose proof (decode_growth_length prev k false false) as Hgrow.
  unfold pollTick, renderBoxes.
  destruct (prev ++ k) as [|x u]; [lia|].
  destruct (_ || _ || _); simpl; lia.
Qed.

Lemma pollRun_cursor (w h : float) mode snapshots : ∀ prev st i a b,
  growingStream prev snapshots →
  lastBoxCount st ≤ length (parseBoxesFromTokens prev false) →
  (st :: pollRun w h mode snapshots st) !! i = Some a →
  (st :: pollRun w h mode snapshots st) !! S i = Some b →
  lastBoxCount a ≤ lastBoxCount b.
Proof.
  induction snapshots as [|s rest IH]; intros prev st i a b Hg Hst Ha Hb.
  { by destruct i. }
  destruct Hg as [Hpre Hg].
  destruct (pollTick_cursor w h mode prev s st Hpre Hst) as [Hup Hbound].
  destruct i as [|i]; simpl in Ha, Hb.
  - injection Ha as <-. injection Hb as <-. done.
  - by apply (IH s (pollTick w h mode s st) i a b).
Qed.

(** A paint call with at least as many boxes as the cursor counts does not
    lower the cursor. *)
Lemma renderBoxes_cursor_le boxes w h mode st :
  lastBoxCount st ≤ length boxes →
  lastBoxCount st ≤ lastBoxCount (renderBoxes boxes w h mode st).
Proof.
  intros Hle. unfold renderBoxes.
  destruct (falsy w || falsy h || bool_decide (length boxes = 0)); simpl; lia.
Qed.

(** The claim of C6 as it is worded fails: [renderBoxes] stores the length
    of the list it is given without comparing it with the cursor. In a run
    whose second snapshot is shorter than the first, the first paint call
    brings the cursor to 2 and the second lowers it to 1. *)
Lemma cursor_lowered_counterexample :
  let s1 := js "<|ref|>title<|/ref|><|det|>[[0,0,10,10]]<|/det|>Hello" in
  let s2 := s1 ++ js "<|ref|>text<|/ref|><|det|>[[1,2,3,4]]<|/det|>" in
  let mode := Some (js "document") in
  let st1 := pollTick 800 600 mode s2 clearOverlay in
  let st2 :=
    renderBoxes (parseBoxesFromTokens s1 false) (Some 800%float)
      (Some 600%float) mode st1 in
  pollRun 800 600 mode [s2; s1] clearOverlay = [st1; st2]
  ∧ lastBoxCount st1 = 2 ∧ lastBoxCount st2 = 1
  ∧ ¬ (∀ snapshots i a b,
         (clearOverlay :: pollRun 800 600 mode snapshots clearOverlay) !! i
           = Some a →
         (clearOverlay :: pollRun 800 600 mode snapshots clearOverlay) !! S i
           = Some b →
         lastBoxCount a ≤ lastBoxCount b).
Proof.
  intros s1 s2 mode st1 st2.
  assert (pollRun 800 600 mode [s2; s1] clearOverlay = [st1; st2]) as Hrun.
  { reflexivity. }
  assert (lastBoxCount st1 = 2) as H1 by (by vm_compute).
  assert (lastBoxCount st2 = 1) as H2 by (by vm_compute).
  split_and!; [done..|].
  intros Hall. specialize (Hall [s2; s1] 1 st1 st2).
  rewrite Hrun in Hall. specialize (Hall eq_refl eq_refl). lia.
Qed.

(** C6 (amended): in a processing run in which every paint call gets the
    boxes decoded from a snapshot of a stream that only grows (the overlay
    cleared, then one paint call per poll tick), no paint call lowers the
    render cursor. In general a paint call does not lower the cursor when
    its list is at least as long as the cursor counts; [renderBoxes] itself
    does not compare. And no paint call whatsoever brings a non-zero cursor
    back to zero: that is done only by [clearOverlay] and by the explicit
    reset of [finalRender]. *)
Theorem cursor_monotone (w h : float) (mode : option jsstring)
    (snapshots : list jsstring) :
  growingStream [] snapshots →
  (∀ i a b,
     (clearOverlay :: pollRun w h mode snapshots clearOverlay) !! i = Some a →
     (clearOverlay :: pollRun w h mode snapshots clearOverlay) !! S i
       = Some b →
     lastBoxCount a ≤ lastBoxCount b)
  ∧ (∀ boxes w' h' mode' st,
       lastBoxCount st ≤ length boxes →
       lastBoxCount st ≤ lastBoxCount (renderBoxes boxes w' h' mode' st))
  ∧ (∀ boxes w' h' mode' st,
       lastBoxCount st ≠ 0 →
       lastBoxCount (renderBoxes boxes w' h' mode' st) ≠ 0).
Proof.
  intros Hg. split_and!.
  - intros i a b. apply (pollRun_cursor w h mode snapshots []); [done|].
    simpl. lia.
  - intros boxes w' h' mode' st. apply renderBoxes_cursor_le.
  - intros boxes w' h' mode' st. apply renderBoxes_cursor_nonzero.
Qed.

Lemma cursor_monotone_witness :
  let s1 := js "<|ref|>title<|/ref|><|det|>[[0,0,10,10]]<|/det|>Hel" in
  let s2 := s1 ++ js "lo<|ref|>text<|/ref|><|det|>[[1,2,3,4]]<|/det|>" in
  let mode := Some (js "document") in
  let st1 := pollTick 800 600 mode [] clearOverlay in
  let st2 := pollTick 800 600 mode s1 st1 in
  let st3 := pollTick 800 600 mode s1 st2 in
  let st4 := pollTick 800 600 mode s2 st3 in
  lastBoxCount st3 ≤ lastBoxCount st4
  ∧ lastBoxCount <$> [st1; st2; st3; st4] = [0; 1; 1; 2].
Proof.
  intros s1 s2 mode st1 st2 st3 st4. split; [|by vm_compute].
  apply (proj1 (cursor_monotone 800 600 mode [[]; s1; s1; s2]
                  (conj (prefix_nil _)
                     (conj (prefix_nil _)
                        (conj (reflexivity _)
                           (conj (ex_intro _ _ eq_refl) I)))))
           3 st3 st4); by vm_compute.
Defined.

(** ** The decoder: claims *)

(** C3: the coordinate text of a raw match is split on commas, each token
    trimmed and parsed with [parseFloat], the [NaN]s discarded; the match
    yields a box iff exactly four numbers are left. The decoder is a total
    function: whatever the stream, it returns the boxes of the matches with
    four numbers, in order, and drops the others. The stream
    [<|ref|>text<|/ref|><|det|>[[1,2,3]]<|/det|>] has one raw match, with
    three numbers, and decodes to no box at all. *)
Theorem four_numbers_or_dropped (text : jsstring) (c : bool) :
  (∀ i m, collectMatches text !! i = Some m →
     is_Some (processMatch text c (collectMatches text) i)
     ↔ length (filter (λ n, isNaN n = false)
                 ((λ s, parseFloat (trim s))
                    <$> split 44 (MatchData.coords m))) = 4)
  ∧ content <$> parseBoxesFromTokens text c
    = MatchData.content <$> filter fourNumbers (collectMatches text)
  ∧ length (parseBoxesFromTokens text c)
    = length (filter fourNumbers (collectMatches text))
  ∧ (MatchData.coords
       <$> collectMatches (js "<|ref|>text<|/ref|><|det|>[[1,2,3]]<|/det|>")
     = [js "1,2,3"]
     ∧ parseCoords (js "1,2,3") = [1; 2; 3]%float
     ∧ parseBoxesFromTokens
         (js "<|ref|>text<|/ref|><|det|>[[1,2,3]]<|/det|>") c = []).
Proof.
  split_and!.
  - intros i m Hm. apply processMatch_is_Some, Hm.
  - apply parseBoxes_filter.
  - pose proof (parseBoxes_filter text c) as H.
    apply (f_equal length) in H. by rewrite !length_fmap in H.
  - by vm_compute.
  - by vm_compute.
  - by destruct c; vm_compute.
Qed.

Lemma elem_of_dropWhile {A} (p : A → bool) l x :
  x ∈ dropWhile p l → x ∈ l.
Proof.
  induction l as [|y l IH]; simpl; [done|].
  destruct (p y); [|done]. intros Hx. right. by apply IH.
Qed.

Lemma elem_of_trim s x : x ∈ trim s → x ∈ s.
Proof.
  unfold trim, trimEnd, trimStart. rewrite elem_of_reverse.
  intros Hx%elem_of_dropWhile. rewrite elem_of_reverse in Hx.
  by apply elem_of_dropWhile in Hx.
Qed.

Lemma matchesFrom_elem text ms lastIndex m :
  matchesFrom text lastIndex ms → m ∈ ms → recordsRegion text m.
Proof.
  intros Hms (i & Hi)%list_elem_of_lookup.
  by destruct (matchesFrom_lookup _ _ _ _ _ Hms Hi) as (_ & ? & _).
Qed.

Lemma parseBoxes_elem text c b :
  b ∈ parseBoxesFromTokens text c →
  ∃ i, i < length (collectMatches text)
       ∧ processMatch text c (collectMatches text) i = Some b.
Proof.
  intros (i & Hi & Hb)%list_elem_of_omap. apply elem_of_seq in Hi.
  exists i. split; [lia|done].
Qed.

(** C10: every raw match is one tagged region of the stream whose label
    text is non-empty and contains no [<] and whose coordinate text is
    non-empty and contains no []]; every box comes from such a match, so no
    box ever has a label with a [<] in it. A region whose label contains
    [<] is not extracted although all its tags are there: the stream
    [<|ref|>a<b<|/ref|><|det|>[[1,2,3,4]]<|/det|>] has no match. *)
Theorem extraction_needs_clean_label (text : jsstring) :
  (∀ m, m ∈ collectMatches text → recordsRegion text m)
  ∧ (∀ c b, b ∈ parseBoxesFromTokens text c →
       ∃ m, m ∈ collectMatches text ∧ recordsRegion text m
            ∧ content b = MatchData.content m ∧ (60%N ∉ content b))
  ∧ (collectMatches (js "<|ref|>a<b<|/ref|><|det|>[[1,2,3,4]]<|/det|>") = []
     ∧ ∀ c, parseBoxesFromTokens
              (js "<|ref|>a<b<|/ref|><|det|>[[1,2,3,4]]<|/det|>") c = []).
Proof.
  split_and!.
  - intros m Hm.
    by eapply matchesFrom_elem; [apply collectMatches_matchesFrom|].
  - intros c b (i & _ & Hb)%parseBoxes_elem.
    apply processMatch_Some in Hb as (m & Hm & _ & Hc & _).
    assert (m ∈ collectMatches text) as Hin
      by (by eapply list_elem_of_lookup_2).
    pose proof (matchesFrom_elem _ _ _ _ (collectMatches_matchesFrom text) Hin)
      as Hrec.
    exists m. split_and!; try done.
    destruct Hrec as (l & ? & _ & Hl & _ & _ & _ & _ & _ & Hcm & _).
    rewrite Hc, Hcm. by intros ?%elem_of_trim.
  - by vm_compute.
  - intros c. by destruct c; vm_compute.
Qed.

Lemma extraction_needs_clean_label_witness :
  let text := js "x<|ref|> sub_title <|/ref|><|det|>[[1, 2, 3, 4]]<|/det|>y" in
  recordsRegion text (MatchData.mk (js "sub_title") (js "1, 2, 3, 4") 1 56).
Proof.
  intros text.
  apply (proj1 (extraction_needs_clean_label text)).
  vm_compute. constructor.
Defined.


Lemma lastMatchDecodes_is_Some text c :
  lastMatchDecodes text
  ↔ is_Some (processMatch text c (collectMatches text)
               (length (collectMatches text) - 1)).
Proof.
  unfold lastMatchDecodes. split.
  - intros (m & Hm & Hf). rewrite last_lookup in Hm.
    rewrite Nat.sub_1_r. by apply (processMatch_is_Some text c _ _ m).
  - intros [b Hb]. pose proof Hb as (m & Hm & _)%processMatch_Some.
    exists m. rewrite last_lookup, <- Nat.sub_1_r. split; [done|].
    apply (processMatch_is_Some text c _ _ _ Hm). eauto.
Qed.

(** C1 (amended): an annotation followed by another has [isFinal] true iff
    its trailing text is non-empty. The last annotation has [isFinal] true
    iff the stream is complete and its trailing text is non-empty, provided
    it comes from the last raw match, that is, provided the last raw match
    yields an annotation; then it is never final while the stream is in
    progress. When the last raw match is dropped for its coordinates, the
    last annotation is followed by that match and is judged like the others:
    final iff its trailing text is non-empty. *)
Theorem isFinal_by_position (text : jsstring) (c : bool) (j : nat) (b : box) :
  parseBoxesFromTokens text c !! j = Some b →
  (j + 1 < length (parseBoxesFromTokens text c) →
     isComplete b = nonEmpty (textContent b))
  ∧ (j + 1 = length (parseBoxesFromTokens text c) → lastMatchDecodes text →
       isComplete b = c && nonEmpty (textContent b))
  ∧ (j + 1 = length (parseBoxesFromTokens text c) → lastMatchDecodes text →
       c = false → isComplete b = false)
  ∧ (j + 1 = length (parseBoxesFromTokens text c) → ¬ lastMatchDecodes text →
       isComplete b = nonEmpty (textContent b)).
Proof.
  rewrite (lastMatchDecodes_is_Some text c), (parseBoxes_split text c).
  cbn zeta. set (ms := collectMatches text).
  set (front := omap (processMatch text c ms) (seq 0 (length ms - 1))).
  assert (∀ b', b' ∈ front → isComplete b' = nonEmpty (textContent b'))
    as Hfront.
  { intros b' (i & Hi & Hb')%parseBoxes_front.
    apply processMatch_Some in Hb' as (_ & _ & _ & _ & _ & _ & _ & ->).
    by rewrite decide_True by done. }
  assert (∀ b', processMatch text c ms (length ms - 1) = Some b' →
            isComplete b' = c && nonEmpty (textContent b')) as Hlast.
  { intros b' Hb'.
    apply processMatch_Some in Hb' as (m & Hm & _ & _ & _ & _ & _ & ->).
    apply lookup_lt_Some in Hm. by rewrite decide_False by lia. }
  destruct (processMatch text c ms (length ms - 1)) as [bl|] eqn:Hbl; simpl.
  - rewrite length_app. simpl. intros Hj.
    destruct (decide (j < length front)) as [Hlt|Hge].
    + rewrite lookup_app_l in Hj by done.
      split_and!; try (intros; lia). intros _. apply Hfront.
      by eapply list_elem_of_lookup_2.
    + rewrite lookup_app_r in Hj by lia.
      destruct (j - length front) as [|?] eqn:Hd; [|done].
      injection Hj as <-. split_and!; try (intros; lia).
      * intros _ _. by apply Hlast.
      * intros _ _ ->. by rewrite (Hlast bl).
      * intros _ []. eauto.
  - rewrite app_nil_r. intros Hj.
    assert (isComplete b = nonEmpty (textContent b)).
    { apply Hfront. by eapply list_elem_of_lookup_2. }
    split_and!; try done; by intros _ [? ?].
Qed.

Lemma isFinal_by_position_witness :
  let text := js "<|ref|>title<|/ref|><|det|>[[0,0,10,10]]<|/det|>Hello" in
  let b := mkBox (js "title") (js "Hello") true (js "title")
             0%float 0%float 10%float 10%float false in
  parseBoxesFromTokens text false = [b]
  ∧ isComplete b = false && nonEmpty (textContent b).
Proof.
  intros text b.
  assert (parseBoxesFromTokens text false = [b]) as Hb by (by vm_compute).
  assert (lastMatchDecodes text) as Hlast.
  { exists (MatchData.mk (js "title") (js "0,0,10,10") 0 48).
    split; by vm_compute. }
  split; [done|].
  refine (proj1 (proj2 (isFinal_by_position text false 0 b _)) _ Hlast);
    by rewrite Hb.
Defined.

(** The completion example of the specification: the same stream decoded
    while in progress and once complete. *)
Example completion_inference :
  let text := js "<|ref|>title<|/ref|><|det|>[[0,0,10,10]]<|/det|>Hello" in
  isComplete <$> parseBoxesFromTokens text false = [false]
  ∧ isComplete <$> parseBoxesFromTokens text true = [true].
Proof. by vm_compute. Qed.

(** The claim of C1 as it is worded fails: here the last (and only)
    annotation is final although the stream is not complete, because a raw
    match with malformed coordinates follows it. *)
Lemma isFinal_last_annotation_counterexample :
  let text :=
    js ("<|ref|>title<|/ref|><|det|>[[0,0,10,10]]<|/det|>Hello"
        ++ "<|ref|>text<|/ref|><|det|>[[1,2,3]]<|/det|>") in
  ∃ b, parseBoxesFromTokens text false = [b]
       ∧ textContent b = js "Hello"
       ∧ isComplete b = true
       ∧ isComplete b ≠ false && nonEmpty (textContent b).
Proof. eexists. by vm_compute. Qed.

(** C2 (amended): the trailing text of an annotation is the substring of
    the stream from the end offset of its raw match to the start offset of
    the next raw match (whether or not that match yields an annotation), or
    to the end of the stream after the last raw match, with the white space
    at both ends trimmed off; nothing else is added or removed. *)
Theorem trailingText_trimmed_gap (text : jsstring) (c : bool) (b : box) :
  b ∈ parseBoxesFromTokens text c →
  ∃ i m,
    collectMatches text !! i = Some m
    ∧ processMatch text c (collectMatches text) i = Some b
    ∧ MatchData.matchEnd m ≤ trailingEnd text (collectMatches text) i
    ∧ trailingEnd text (collectMatches text) i ≤ length text
    ∧ textContent b
      = trim (take (trailingEnd text (collectMatches text) i
                    - MatchData.matchEnd m)
                (drop (MatchData.matchEnd m) text)).
Proof.
  intros (i & _ & Hb)%parseBoxes_elem.
  pose proof Hb as (m & Hm & _ & _ & _ & _ & Ht & _)%processMatch_Some.
  exists i, m.
  pose proof (collectMatches_matchesFrom text) as Hfrom.
  destruct (matchesFrom_lookup _ _ _ _ _ Hfrom Hm)
    as (_ & [? ?]%recordsRegion_bounds & Hnext).
  assert (MatchData.matchEnd m ≤ trailingEnd text (collectMatches text) i
          ∧ trailingEnd text (collectMatches text) i ≤ length text)
    as [? ?].
  { unfold trailingEnd. rewrite Nat.add_1_r.
    destruct (collectMatches text !! S i) as [next|] eqn:Hn; [|lia].
    split; [by apply Hnext|].
    destruct (matchesFrom_lookup _ _ _ _ _ Hfrom Hn)
      as (_ & [? ?]%recordsRegion_bounds & _). lia. }
  split_and!; try done. by rewrite Ht, substring_le.
Qed.

Lemma trailingText_trimmed_gap_witness :
  let text :=
    js ("<|ref|>title<|/ref|><|det|>[[0,0,10,10]]<|/det|> Hello "
        ++ "<|ref|>text<|/ref|><|det|>[[1,2,3,4]]<|/det|> World") in
  ∃ i m,
    collectMatches text !! i = Some m
    ∧ processMatch text true (collectMatches text) i
      = Some (mkBox (js "title") (js "Hello") true (js "title")
                0%float 0%float 10%float 10%float true)
    ∧ MatchData.matchEnd m ≤ trailingEnd text (collectMatches text) i
    ∧ trailingEnd text (collectMatches text) i ≤ length text
    ∧ js "Hello"
      = trim (take (trailingEnd text (collectMatches text) i
                    - MatchData.matchEnd m)
                (drop (MatchData.matchEnd m) text)).
Proof.
  intros text.
  apply (trailingText_trimmed_gap text true
           (mkBox (js "title") (js "Hello") true (js "title")
              0%float 0%float 10%float 10%float true)).
  vm_compute. constructor.
Defined.

(** The claim of C2 as it is worded fails: the white space around the
    trailing text is removed. *)
Lemma trailingText_counterexample :
  let text := js "<|ref|>title<|/ref|><|det|>[[0,0,10,10]]<|/det|> Hello " in
  ∃ m b,
    collectMatches text = [m]
    ∧ parseBoxesFromTokens text true = [b]
    ∧ substring text (MatchData.matchEnd m) (length text) = js " Hello "
    ∧ textContent b = js "Hello"
    ∧ textContent b ≠ substring text (MatchData.matchEnd m) (length text).
Proof. eexists _, _. by vm_compute. Qed.

(** The trailing text stops at the next raw match even when that match is
    dropped: it does not run on to the next annotation. *)
Example trailingText_stops_at_dropped_match :
  let text :=
    js ("<|ref|>title<|/ref|><|det|>[[0,0,10,10]]<|/det|>Hello"
        ++ "<|ref|>x<|/ref|><|det|>[[1,2,3]]<|/det|>World"
        ++ "<|ref|>text<|/ref|><|det|>[[1,2,3,4]]<|/det|>") in
  ∃ m0 m1 m2 b0 b2,
    collectMatches text = [m0; m1; m2]
    ∧ parseBoxesFromTokens text true = [b0; b2]
    ∧ content b2 = MatchData.content m2
    ∧ textContent b0 = js "Hello"
    ∧ substring text (MatchData.matchEnd m0) (MatchData.matchStart m1)
      = js "Hello"
    ∧ substring text (MatchData.matchEnd m0) (MatchData.matchStart m2)
      = js "Hello<|ref|>x<|/ref|><|det|>[[1,2,3]]<|/det|>World".
Proof. eexists _, _, _, _, _. by vm_compute. Qed.

(** * Further properties *)

(** ** Boxes and the matches they come from *)

(** The decoded boxes correspond, one to one and in order, to the raw
    matches with four numbers. *)
Lemma parseBoxes_decodesTo text c :
  Forall2 decodesTo (filter fourNumbers (collectMatches text))
    (parseBoxesFromTokens text c).
Proof.
  unfold parseBoxesFromTokens.
  set (ms := collectMatches text).
  assert (∀ suf pre, ms = pre ++ suf →
            Forall2 decodesTo (filter fourNumbers suf)
              (omap (processMatch text c ms)
                 (seq (length pre) (length suf)))) as Hgen.
  { induction suf as [|m suf IH]; intros pre Hms; [constructor|].
    assert (ms !! length pre = Some m) as Hm.
    { by rewrite Hms, lookup_app_r, Nat.sub_diag by lia. }
    assert (Forall2 decodesTo (filter fourNumbers suf)
              (omap (processMatch text c ms)
                 (seq (S (length pre)) (length suf)))) as Hrest.
    { specialize (IH (pre ++ [m])). rewrite length_app in IH. simpl in IH.
      rewrite Nat.add_1_r in IH. apply IH. by rewrite <- app_assoc. }
    cbn [length seq]. rewrite filter_cons.
    pose proof (processMatch_is_Some text c ms _ _ Hm) as Hiff.
    cbn [omap list_omap]. fold (@omap list _ _ _ (processMatch text c ms)).
    destruct (processMatch text c ms (length pre)) as [b|] eqn:Hb.
    - rewrite decide_True by (apply Hiff; eauto).
      apply processMatch_Some in Hb as (m' & Hm' & ? & ? & ? & ? & _).
      assert (m' = m) as -> by congruence.
      constructor; [done|apply Hrest].
    - rewrite decide_False; [done|].
      intros Hf. apply Hiff in Hf as [? ?]. done. }
  apply (Hgen ms []). done.
Qed.

Lemma decodesTo_literal ms bs :
  Forall2 decodesTo ms bs →
  content <$> filter (λ b, isType b = false) bs
  = MatchData.content <$> filter literalContent ms.
Proof.
  induction 1 as [|m b ms bs (Hc & Ht & _) _ IH]; [done|].
  rewrite !filter_cons. unfold literalContent at 1.
  rewrite Ht. case_bool_decide as Hk.
  - rewrite decide_False by done. by rewrite decide_False by (by intros []).
  - rewrite decide_True by done. rewrite decide_True by done.
    by rewrite !fmap_cons, Hc, IH.
Qed.

(** ** [join] *)

Lemma join_cons_cons sep p q rest :
  join sep (p :: q :: rest) = p ++ sep ++ join sep (q :: rest).
Proof. done. Qed.

Lemma join_snoc sep l p :
  l ≠ [] → join sep (l ++ [p]) = join sep l ++ sep ++ p.
Proof.
  induction l as [|q l IH]; [done|]. intros _.
  destruct l as [|r l]; [done|].
  change ((q :: r :: l) ++ [p]) with (q :: r :: (l ++ [p])).
  rewrite !join_cons_cons.
  change (r :: l ++ [p]) with ((r :: l) ++ [p]).
  rewrite IH by done. by rewrite <- !app_assoc.
Qed.

Lemma join_prefix sep l1 l2 :
  l1 `prefix_of` l2 → join sep l1 `prefix_of` join sep l2.
Proof.
  intros [k ->]. induction k as [|p k IH] using rev_ind.
  - by rewrite app_nil_r.
  - destruct (decide (l1 ++ k = [])) as [He|Hne].
    + apply app_eq_nil in He as [-> ->]. apply prefix_nil.
    + rewrite app_assoc, join_snoc by done.
      by apply prefix_app_r.
Qed.

Lemma elem_of_join sep l x :
  x ∈ join sep l → x ∈ sep ∨ ∃ p, p ∈ l ∧ x ∈ p.
Proof.
  induction l as [|p l IH]; [by intros ?%elem_of_nil|].
  destruct l as [|q l].
  - intros Hx. right. exists p. split; [left|done].
  - rewrite join_cons_cons, !elem_of_app.
    intros [Hx|[Hx|Hx]].
    + right. exists p. split; [left|done].
    + by left.
    + destruct (IH Hx) as [?|(p' & Hp' & ?)]; [by left|].
      right. exists p'. split; [by right|done].
Qed.

(** ** The extracted text *)

Lemma extractText_matches text :
  extractTextFromTokens text
  = join [10%N]
      (MatchData.content
         <$> filter (λ m, literalContent m ∧ fourNumbers m)
               (collectMatches text)).
Proof.
  unfold extractTextFromTokens. cbn zeta.
  rewrite (decodesTo_literal _ _ (parseBoxes_decodesTo text false)).
  by rewrite list_filter_filter.
Qed.

Lemma extractText_prefix s t :
  extractTextFromTokens s `prefix_of` extractTextFromTokens (s ++ t).
Proof.
  rewrite !extractText_matches. apply join_prefix.
  destruct (collectMatches_app s t) as [k ->].
  rewrite filter_app, fmap_app. by apply prefix_app_r.
Qed.

(** X1: the extracted text is the line-feed join of the trimmed labels of
    the raw matches that have four numbers and whose label is not a category
    name, in stream order. *)
Theorem extractText_spec (text : jsstring) :
  extractTextFromTokens text
  = join [10%N]
      (MatchData.content
         <$> filter (λ m, literalContent m ∧ fourNumbers m)
               (collectMatches text)).
Proof. apply extractText_matches. Qed.

(** X2: when a stream grows by appended text, the text extracted before is
    a prefix of the text extracted after: extraction only ever appends. *)
Theorem extractText_grows (s t : jsstring) :
  extractTextFromTokens s `prefix_of` extractTextFromTokens (s ++ t).
Proof. apply extractText_prefix. Qed.

Lemma matchContent_clean text m :
  m ∈ collectMatches text → 60%N ∉ MatchData.content m.
Proof.
  intros Hm.
  destruct (matchesFrom_elem _ _ _ _ (collectMatches_matchesFrom text) Hm)
    as (l & ? & _ & Hl & _ & _ & _ & _ & _ & -> & _).
  by intros ?%elem_of_trim.
Qed.

(** X3: the extracted text never contains the character [<], so no tag of
    the stream can show up in it. *)
Theorem extractText_tag_free (text : jsstring) :
  60%N ∉ extractTextFromTokens text.
Proof.
  rewrite extractText_matches.
  intros [Hx|(p & Hp & Hx)]%elem_of_join.
  - by apply list_elem_of_singleton in Hx.
  - apply list_elem_of_fmap in Hp as (m & -> & Hm).
    apply list_elem_of_filter in Hm as [_ Hm].
    by apply (matchContent_clean text m).
Qed.

(** ** Categories, colours and labels of decoded boxes *)

Lemma known_type_coloured k :
  k ∈ KNOWN_TYPES →
  length k ≤ 13 ∧ ∃ colour, (k, colour) ∈ TYPE_COLORS ∧ colour ≠ [].
Proof.
  intros Hk. unfold KNOWN_TYPES in Hk. rewrite !fmap_cons in Hk.
  repeat (apply elem_of_cons in Hk as [->|Hk]);
    try (split; [vm_compute; lia|];
         eexists; split;
         [unfold TYPE_COLORS; repeat first [left | right]|by vm_compute]).
  by apply elem_of_nil in Hk.
Qed.

(** X4: the category of a decoded box is always one of [KNOWN_TYPES] (the
    label itself when it is a category name, ['text'] otherwise), and every
    such category is an own key of [TYPE_COLORS] with a non-empty colour: the
    fallback colour for unknown types is never used for a decoded box. *)
Theorem box_type_known (text : jsstring) (c : bool) (b : box) :
  b ∈ parseBoxesFromTokens text c →
  (type b ∈ KNOWN_TYPES)
  ∧ (∃ colour, (type b, colour) ∈ TYPE_COLORS ∧ colour ≠ [])
  ∧ (isType b = true ↔ content b ∈ KNOWN_TYPES)
  ∧ (isType b = true → type b = content b)
  ∧ (isType b = false → type b = js "text").
Proof.
  intros (i & _ & Hb)%parseBoxes_elem.
  apply processMatch_Some in Hb as (m & _ & _ & Hc & Ht & Hty & _).
  assert (type b ∈ KNOWN_TYPES) as Hk.
  { rewrite Hty, Ht. case_bool_decide; [done|].
    apply (bool_decide_unpack _). by vm_compute. }
  split_and!; try done.
  - by apply known_type_coloured.
  - rewrite Ht, Hc. apply bool_decide_eq_true.
  - intros Hi. by rewrite Hty, Hi, Hc.
  - intros Hi. by rewrite Hty, Hi.
Qed.

Lemma box_type_known_witness :
  let text := js "<|ref|>Total: 42<|/ref|><|det|>[[1,2,3,4]]<|/det|>" in
  let b := mkBox (js "Total: 42") [] false (js "text")
             1%float 2%float 3%float 4%float false in
  type b ∈ KNOWN_TYPES.
Proof.
  intros text b.
  assert (b ∈ parseBoxesFromTokens text false) as Hb.
  { vm_compute. constructor. }
  exact (proj1 (box_type_known text false b Hb)).
Defined.

Lemma paintBox_displayText w h mode b :
  displayText (paintBox w h mode b)
  = if isType b then type b
    else if decide (30 < length (content b))
         then substring (content b) 0 30 ++ js "..."
         else content b.
Proof.
  unfold paintBox. destruct (scaleBox b w h) as [[[??]?]?].
  by repeat case_decide.
Qed.

Lemma decoded_displayText (w h : float) (mode : option jsstring)
    (text : jsstring) (c : bool) (b : box) :
  b ∈ parseBoxesFromTokens text c →
  length (displayText (paintBox w h mode b)) ≤ 33
  ∧ (isType b = true → displayText (paintBox w h mode b) = content b)
  ∧ (isType b = false → length (content b) ≤ 30 →
       displayText (paintBox w h mode b) = content b)
  ∧ (isType b = false → 30 < length (content b) →
       displayText (paintBox w h mode b) = take 30 (content b) ++ js "...").
Proof.
  intros Hb. rewrite paintBox_displayText.
  assert (∀ s : jsstring, 30 < length s →
            substring s 0 30 ++ js "..." = take 30 s ++ js "...") as Hsub.
  { intros s Hs. by rewrite substring_le by lia. }
  destruct (parseBoxes_elem _ _ _ Hb) as (i & _ & Hp).
  apply processMatch_Some in Hp as (m & _ & _ & Hc & Ht & Hty & _).
  destruct (isType b) eqn:Hi.
  - split_and!; try done; [|by rewrite Hty, Hc].
    rewrite Hty. symmetry in Ht. apply bool_decide_eq_true in Ht.
    apply known_type_coloured in Ht as [? _]. lia.
  - destruct (decide (30 < length (content b))) as [Hlen|Hlen].
    + rewrite Hsub by done. split_and!; try done; try (intros; lia).
      rewrite length_app, length_take. change (length (js "...")) with 3.
      lia.
    + split_and!; try done; try (intros; lia).
Qed.

(** X5: the label shown on a painted box is short: a category name, or the
    content itself when it has at most 30 code units, or its first 30 code
    units followed by three dots; in all, never more than 33 code units for
    a decoded box. *)
Theorem displayText_bounded (w h : float) (mode : option jsstring)
    (text : jsstring) (c : bool) (b : box) :
  b ∈ parseBoxesFromTokens text c →
  length (displayText (paintBox w h mode b)) ≤ 33
  ∧ (isType b = true → displayText (paintBox w h mode b) = content b)
  ∧ (isType b = false → length (content b) ≤ 30 →
       displayText (paintBox w h mode b) = content b)
  ∧ (isType b = false → 30 < length (content b) →
       displayText (paintBox w h mode b) = take 30 (content b) ++ js "...").
Proof. apply decoded_displayText. Qed.

Lemma displayText_bounded_witness :
  let text :=
    js ("<|ref|>The quick brown fox jumps over the lazy dog<|/ref|>"
        ++ "<|det|>[[1,2,3,4]]<|/det|>") in
  let b := mkBox (js "The quick brown fox jumps over the lazy dog") []
             false (js "text") 1%float 2%float 3%float 4%float false in
  length (displayText (paintBox 800 600 None b)) ≤ 33
  ∧ displayText (paintBox 800 600 None b)
    = js "The quick brown fox jumps over..." .
Proof.
  intros text b.
  assert (b ∈ parseBoxesFromTokens text false) as Hb.
  { vm_compute. constructor. }
  split.
  - exact (proj1 (displayText_bounded 800 600 None text false b Hb)).
  - by vm_compute.
Defined.

(** ** Trimming *)

Lemma dropWhile_head {A} (p : A → bool) l x :
  head (dropWhile p l) = Some x → p x = false.
Proof.
  induction l as [|y l IH]; simpl; [done|].
  destruct (p y) eqn:Hy; [done|]. simpl. by intros [= <-].
Qed.

Lemma trimEnd_prefix s : trimEnd s `prefix_of` s.
Proof.
  unfold trimEnd.
  exists (reverse (takeWhile isWhiteSpace (reverse s))).
  rewrite <- reverse_app, takeWhile_dropWhile. by rewrite reverse_involutive.
Qed.

Lemma trim_trimmed s : trimmed (trim s).
Proof.
  unfold trimmed, trim. split.
  - intros c Hc. apply (dropWhile_head isWhiteSpace s c). fold (trimStart s).
    destruct (trimEnd_prefix (trimStart s)) as [k Hk].
    rewrite Hk. by destruct (trimEnd (trimStart s)).
  - intros c. unfold trimEnd at 1. rewrite last_reverse.
    apply dropWhile_head.
Qed.

(** X6: the label and the trailing text of every decoded box are trimmed:
    neither starts nor ends with a white space character. *)
Theorem box_texts_trimmed (text : jsstring) (c : bool) (b : box) :
  b ∈ parseBoxesFromTokens text c →
  trimmed (content b) ∧ trimmed (textContent b).
Proof.
  intros (i & _ & Hb)%parseBoxes_elem.
  apply processMatch_Some in Hb as (m & Hm & _ & Hc & _ & _ & Ht & _).
  split.
  - assert (m ∈ collectMatches text) as Hin
      by (by eapply list_elem_of_lookup_2).
    destruct (matchesFrom_elem _ _ _ _ (collectMatches_matchesFrom text) Hin)
      as (l & ? & _ & _ & _ & _ & _ & _ & _ & Hl & _).
    rewrite Hc, Hl. apply trim_trimmed.
  - rewrite Ht. apply trim_trimmed.
Qed.

Lemma box_texts_trimmed_witness :
  let text :=
    js "<|ref|>  title <|/ref|><|det|>[[1,2,3,4]]<|/det|>  Hello  world " in
  let b := mkBox (js "title") (js "Hello  world") true (js "title")
             1%float 2%float 3%float 4%float true in
  trimmed (content b) ∧ trimmed (textContent b).
Proof.
  intros text b.
  assert (b ∈ parseBoxesFromTokens text true) as Hb.
  { vm_compute. constructor. }
  exact (box_texts_trimmed text true b Hb).
Defined.

(** ** The raw matches of a stream *)

Lemma matchesFrom_later text ms lastIndex : ∀ d i mi mj,
  matchesFrom text lastIndex ms →
  ms !! i = Some mi → ms !! (i + S d) = Some mj →
  MatchData.matchEnd mi ≤ MatchData.matchStart mj.
Proof.
  induction d as [|d IH]; intros i mi mj Hms Hi Hj.
  - rewrite Nat.add_1_r in Hj.
    by destruct (matchesFrom_lookup _ _ _ _ _ Hms Hi) as (_ & _ & ->).
  - destruct (lookup_lt_is_Some_2 ms (S i)) as [m' Hm'].
    { apply lookup_lt_Some in Hj. lia. }
    destruct (matchesFrom_lookup _ _ _ _ _ Hms Hi) as (_ & _ & Hnext).
    specialize (Hnext _ Hm').
    destruct (matchesFrom_lookup _ _ _ _ _ Hms Hm')
      as (_ & [? ?]%recordsRegion_bounds & _).
    replace (i + S (S d)) with (S i + S d) in Hj by lia.
    specialize (IH _ _ _ Hms Hm' Hj). lia.
Qed.

(** X7: the raw matches of a stream are in stream order and do not
    overlap: each one, also when it is the only one, is non-empty and lies
    within the stream, and a later match starts at or after the end of every
    earlier one. *)
Theorem matches_ordered (text : jsstring) :
  (∀ i m, collectMatches text !! i = Some m →
     MatchData.matchStart m < MatchData.matchEnd m
     ∧ MatchData.matchEnd m ≤ length text)
  ∧ (∀ i j mi mj, i < j →
       collectMatches text !! i = Some mi →
       collectMatches text !! j = Some mj →
       MatchData.matchEnd mi ≤ MatchData.matchStart mj).
Proof.
  pose proof (collectMatches_matchesFrom text) as Hms. split.
  - intros i m Hi.
    destruct (matchesFrom_lookup _ _ _ _ _ Hms Hi)
      as (_ & [? ?]%recordsRegion_bounds & _).
    lia.
  - intros i j mi mj Hij Hi Hj.
    replace j with (i + S (j - i - 1)) in Hj by lia.
    apply (matchesFrom_later _ _ _ _ _ _ _ Hms Hi Hj).
Qed.

Lemma matches_ordered_witness :
  let lone := js "<|ref|>title<|/ref|><|det|>[[0,0,10,10]]<|/det|>Hello" in
  let text := lone ++ js "<|ref|>text<|/ref|><|det|>[[1,2,3,4]]<|/det|>" in
  let mi := MatchData.mk (js "title") (js "0,0,10,10") 0 48 in
  let mj := MatchData.mk (js "text") (js "1,2,3,4") 53 98 in
  collectMatches lone = [mi]
  ∧ (MatchData.matchStart mi < MatchData.matchEnd mi
     ∧ MatchData.matchEnd mi ≤ length lone)
  ∧ collectMatches text = [mi; mj]
  ∧ MatchData.matchEnd mi ≤ MatchData.matchStart mj.
Proof.
  intros lone text mi mj.
  assert (collectMatches lone = [mi]) as Hlone by (by vm_compute).
  assert (collectMatches text = [mi; mj]) as Htext by (by vm_compute).
  assert (collectMatches lone !! 0 = Some mi) as H0 by (by rewrite Hlone).
  assert (collectMatches text !! 0 = Some mi) as Hi by (by rewrite Htext).
  assert (collectMatches text !! 1 = Some mj) as Hj by (by rewrite Htext).
  exact (conj Hlone
           (conj (proj1 (matches_ordered lone) 0 mi H0)
              (conj Htext
                 (proj2 (matches_ordered text) 0 1 mi mj (le_n 1) Hi Hj)))).
Defined.

(** X8: no well-formed region is missed: wherever the stream reads as a
    tagged region with a non-empty label free of [<] and non-empty
    coordinates free of []], that position lies inside a raw match (the
    region itself, or an earlier match that runs over its start). *)
Theorem region_covered (text : jsstring) (i : nat)
    (label coordsText rest : jsstring) :
  drop i text = taggedRegion label coordsText ++ rest →
  label ≠ [] → 60%N ∉ label → coordsText ≠ [] → 93%N ∉ coordsText →
  ∃ m, m ∈ collectMatches text
       ∧ MatchData.matchStart m ≤ i < MatchData.matchEnd m.
Proof.
  intros Hd ? ? ? ?.
  apply (collectMatches_complete text i [label; coordsText]
           (length (taggedRegion label coordsText))).
  apply refDet_match. exists label, coordsText, rest. by split_and!.
Qed.

Lemma region_covered_witness :
  let text := js "ab<|ref|>x<|/ref|><|det|>[[1,2,3,4]]<|/det|>cd" in
  ∃ m, m ∈ collectMatches text
       ∧ MatchData.matchStart m ≤ 2 < MatchData.matchEnd m.
Proof.
  intros text.
  refine (region_covered text 2 (js "x") (js "1,2,3,4") (js "cd") _ _ _ _ _);
    try (by vm_compute).
  - apply (bool_decide_unpack _). by vm_compute.
  - apply (bool_decide_unpack _). by vm_compute.
Defined.

(** X9: a region that follows text without any [<] is the first raw match,
    at its own offsets, whatever its coordinate text holds. If that text
    parses to four numbers, the first decoded box carries the trimmed label
    and these four numbers: what was tagged is what is decoded. If it parses
    to any other count, the match yields no box. *)
Theorem clean_region_decoded (before label coordsText rest : jsstring)
    (c : bool) :
  60%N ∉ before →
  label ≠ [] → 60%N ∉ label → coordsText ≠ [] → 93%N ∉ coordsText →
  let text := before ++ taggedRegion label coordsText ++ rest in
  collectMatches text !! 0
  = Some (MatchData.mk (trim label) coordsText (length before)
            (length before + length (taggedRegion label coordsText)))
  ∧ (∀ n1 n2 n3 n4,
       parseCoords coordsText = [n1; n2; n3; n4] →
       ∃ b, parseBoxesFromTokens text c !! 0 = Some b
            ∧ content b = trim label
            ∧ isType b = bool_decide (trim label ∈ KNOWN_TYPES)
            ∧ x1 b = n1 ∧ y1 b = n2 ∧ x2 b = n3 ∧ y2 b = n4)
  ∧ (length (parseCoords coordsText) ≠ 4 →
     processMatch text c (collectMatches text) 0 = None).
Proof.
  intros Hbefore Hl Hl60 Hc Hc93 text.
  assert (exec refDetRegex text 0
          = Some (length before, [label; coordsText],
                  length (taggedRegion label coordsText))) as Hexec.
  { apply exec_Some. split_and!.
    - lia.
    - unfold text. rewrite length_app. lia.
    - unfold text. rewrite drop_app_length. apply refDet_match.
      exists label, coordsText, rest. by split_and!.
    - intros k Hk.
      destruct (rxMatch refDetRegex (drop k text)) as [[caps n]|] eqn:Hm;
        [|done].
      apply refDet_positions in Hm as (_ & _ & _ & _ & Hk60 & _).
      unfold text in Hk60. rewrite lookup_app_l in Hk60 by lia.
      destruct Hbefore. by eapply list_elem_of_lookup_2. }
  assert (collectMatches text !! 0
          = Some (MatchData.mk (trim label) coordsText (length before)
                    (length before + length (taggedRegion label coordsText))))
    as Hfirst.
  { unfold collectMatches. cbn [collectLoop]. by rewrite Hexec. }
  pose proof (processMatch_is_Some text c _ _ _ Hfirst) as Hsome.
  unfold fourNumbers in Hsome. cbn [MatchData.coords] in Hsome.
  split_and!; [done| |].
  - intros n1 n2 n3 n4 Hnum.
    destruct (proj2 Hsome) as [b Hb]; [by rewrite Hnum|].
    exists b. split.
    + unfold parseBoxesFromTokens. cbn zeta.
      destruct (length (collectMatches text)) as [|k] eqn:Hlen.
      { apply lookup_lt_Some in Hfirst. lia. }
      cbn [seq omap list_omap]. by rewrite Hb.
    + apply processMatch_Some in Hb as (m & Hm & Hp & Hcb & Ht & _).
      rewrite Hfirst in Hm. injection Hm as <-. simpl in *.
      rewrite Hnum in Hp. injection Hp as <- <- <- <-. by split_and!.
  - intros Hcount.
    destruct (processMatch text c (collectMatches text) 0) as [b|] eqn:Hb;
      [|done].
    destruct Hcount. apply Hsome. by exists b.
Qed.

Lemma clean_region_decoded_witness :
  let text :=
    js "Page 1 " ++ taggedRegion (js " title ") (js "10, 20, 30, 40")
       ++ js " Introduction" in
  let short :=
    js "Page 1 " ++ taggedRegion (js " title ") (js "1,2,3")
       ++ js " Introduction" in
  (∃ b, parseBoxesFromTokens text true !! 0 = Some b
        ∧ content b = trim (js " title ")
        ∧ isType b = bool_decide (trim (js " title ") ∈ KNOWN_TYPES)
        ∧ x1 b = 10%float ∧ y1 b = 20%float
        ∧ x2 b = 30%float ∧ y2 b = 40%float)
  ∧ collectMatches short !! 0
    = Some (MatchData.mk (trim (js " title ")) (js "1,2,3") 7
              (7 + length (taggedRegion (js " title ") (js "1,2,3")))).
Proof.
  intros text short.
  assert (60%N ∉ js "Page 1 ") as H1.
  { apply (bool_decide_unpack _). by vm_compute. }
  assert (js " title " ≠ []) as H2 by (by vm_compute).
  assert (60%N ∉ js " title ") as H3.
  { apply (bool_decide_unpack _). by vm_compute. }
  assert (js "10, 20, 30, 40" ≠ []) as H4 by (by vm_compute).
  assert (93%N ∉ js "10, 20, 30, 40") as H5.
  { apply (bool_decide_unpack _). by vm_compute. }
  assert (js "1,2,3" ≠ []) as H6 by (by vm_compute).
  assert (93%N ∉ js "1,2,3") as H7.
  { apply (bool_decide_unpack _). by vm_compute. }
  assert (parseCoords (js "10, 20, 30, 40") = [10; 20; 30; 40]%float)
    as Hnum by (by vm_compute).
  exact (conj
           (proj1 (proj2 (clean_region_decoded (js "Page 1 ") (js " title ")
                            (js "10, 20, 30, 40") (js " Introduction") true
                            H1 H2 H3 H4 H5))
              _ _ _ _ Hnum)
           (proj1 (clean_region_decoded (js "Page 1 ") (js " title ")
                     (js "1,2,3") (js " Introduction") true
                     H1 H2 H3 H6 H7))).
Defined.

(** ** The coordinate text *)

Lemma split_nonempty sep s : split sep s ≠ [].
Proof.
  destruct s as [|c s]; simpl; [done|].
  destruct (c =? sep)%N; [done|]. by destruct (split sep s).
Qed.

Lemma split_app sep a b :
  split sep (a ++ sep :: b) = split sep a ++ split sep b.
Proof.
  induction a as [|x a IH]; simpl.
  - by rewrite N.eqb_refl.
  - destruct (x =? sep)%N; [by rewrite IH|].
    rewrite IH. pose proof (split_nonempty sep a).
    by destruct (split sep a).
Qed.

(** X10: the numbers of a coordinate text are those of its comma-separated
    parts, in order, and an empty part has none: doubled or trailing commas
    and tokens that are not numbers are skipped without shifting the
    others. *)
Theorem parseCoords_comma (a b : jsstring) :
  parseCoords (a ++ 44%N :: b) = parseCoords a ++ parseCoords b
  ∧ parseCoords (a ++ [44%N]) = parseCoords a
  ∧ parseCoords (44%N :: b) = parseCoords b.
Proof.
  assert (∀ u v, parseCoords (u ++ 44%N :: v) = parseCoords u ++ parseCoords v)
    as Happ.
  { intros u v. unfold parseCoords.
    by rewrite split_app, fmap_app, filter_app. }
  split_and!.
  - apply Happ.
  - rewrite Happ. change (parseCoords []) with (@nil float).
    by rewrite app_nil_r.
  - apply (Happ [] b).
Qed.

(** ** Painting during and after a run *)

Global Instance sameRegion_refl : Reflexive sameRegion.
Proof. intros b. by repeat split. Qed.

Global Instance sameRegion_trans : Transitive sameRegion.
Proof.
  intros a b c (? & ? & ? & ? & ? & ? & ?) (? & ? & ? & ? & ? & ? & ?).
  unfold sameRegion. split_and!; congruence.
Qed.

(** The rectangle and the label of a painted box depend on its region
    only. *)
Lemma paintBox_sameRegion w h mode b1 b2 :
  sameRegion b1 b2 →
  geometry (paintBox w h mode b1) = geometry (paintBox w h mode b2)
  ∧ displayText (paintBox w h mode b1) = displayText (paintBox w h mode b2).
Proof.
  intros (Hc & Ht & Hty & Hx1 & Hy1 & Hx2 & Hy2).
  rewrite !paintBox_displayText, Hc, Ht, Hty. split; [|done].
  unfold geometry, paintBox, scaleBox. rewrite Hx1, Hy1, Hx2, Hy2.
  by repeat case_decide.
Qed.

(** Outside ['document'] mode nothing else matters. *)
Lemma paintBox_sameRegion_eq w h mode b1 b2 :
  mode ≠ Some (js "document") → sameRegion b1 b2 →
  paintBox w h mode b1 = paintBox w h mode b2.
Proof.
  intros Hmode (Hc & Ht & Hty & Hx1 & Hy1 & Hx2 & Hy2).
  unfold paintBox, scaleBox. rewrite Hc, Ht, Hty, Hx1, Hy1, Hx2, Hy2.
  rewrite !(bool_decide_eq_false_2 (mode = Some (js "document"))) by done.
  repeat case_decide; try done; simpl; by rewrite ?andb_false_r.
Qed.

Lemma decode_growth_Forall2 s t c1 c2 :
  Forall2 sameRegion (parseBoxesFromTokens s c1)
    (take (length (parseBoxesFromTokens s c1))
       (parseBoxesFromTokens (s ++ t) c2)).
Proof.
  pose proof (decode_growth_length s t c1 c2) as Hlen.
  apply Forall2_same_length_lookup_2.
  - rewrite length_take. lia.
  - intros i b1 b2 Hb1 Hb2.
    destruct (decode_growth s t c1 c2 i b1 Hb1) as (b2' & Hb2' & Hsame & _).
    apply lookup_take_Some in Hb2 as [Hb2 _]. congruence.
Qed.

(** The same stream decoded as in progress and as complete: the same
    regions. *)
Lemma decode_flag_Forall2 s c1 c2 :
  Forall2 sameRegion (parseBoxesFromTokens s c1) (parseBoxesFromTokens s c2).
Proof.
  pose proof (decode_growth_Forall2 s [] c1 c2) as H.
  pose proof (decode_growth_length s [] c1 c2) as H1.
  pose proof (decode_growth_length s [] c2 c1) as H2.
  rewrite app_nil_r in *. by rewrite take_ge in H by lia.
Qed.

Lemma pollTick_paintedFor (w h : float) mode prev s st :
  truthyNumber w = true → truthyNumber h = true →
  prev `prefix_of` s →
  paintedFor w h mode prev st →
  paintedFor w h mode s (pollTick w h mode s st).
Proof.
  intros Hw Hh [k ->] (bs & Hc & Hn & Hbs).
  pose proof (decode_growth_Forall2 prev k false false) as Hgrow.
  pose proof (Forall2_length _ _ _ Hbs) as Hlen.
  set (D := parseBoxesFromTokens (prev ++ k) false) in *.
  assert (Forall2 sameRegion bs (take (length bs) D)) as Hfront.
  { rewrite Hlen.
    eapply (Forall2_trans sameRegion sameRegion sameRegion); [|done|done].
    intros x y z. apply sameRegion_trans. }
  assert (length bs ≤ length D) as Hle.
  { apply Forall2_length in Hfront. rewrite length_take in Hfront. lia. }
  assert (Forall2 sameRegion (bs ++ drop (length bs) D) D) as Hall.
  { rewrite <- (take_drop (length bs) D) at 2.
    apply Forall2_app; [done|]. by apply Forall_Forall2_diag, Forall_forall. }
  assert (paintedFor w h mode (prev ++ k)
            (renderBoxes D (Some w) (Some h) mode st)) as Hpaint.
  { destruct (decide (D = [])) as [HD|HD].
    - rewrite HD, renderBoxes_empty. exists bs. fold D. rewrite HD in *.
      split_and!; try done. by rewrite drop_nil, app_nil_r in Hall.
    - rewrite renderBoxes_paints by done.
      exists (bs ++ drop (length bs) D). simpl. split_and!.
      + by rewrite fmap_app, Hc, Hn.
      + rewrite length_app, length_drop. lia.
      + done. }
  unfold pollTick. fold D.
  destruct (prev ++ k) as [|x u] eqn:Hs; [|done].
  exists bs. split_and!; try done.
  assert (D = []) as HD by (unfold D; by vm_compute).
  fold D. rewrite HD. rewrite HD in Hle.
  destruct bs; [constructor|simpl in Hle; lia].
Qed.

Lemma pollRun_paintedFor (w h : float) mode snapshots : ∀ prev st k st' s,
  truthyNumber w = true → truthyNumber h = true →
  growingStream prev snapshots →
  paintedFor w h mode prev st →
  pollRun w h mode snapshots st !! k = Some st' →
  snapshots !! k = Some s →
  paintedFor w h mode s st'.
Proof.
  induction snapshots as [|s0 rest IH];
    intros prev st k st' s Hw Hh Hg Hst Hk Hs; [done|].
  destruct Hg as [Hpre Hg].
  pose proof (pollTick_paintedFor w h mode prev s0 st Hw Hh Hpre Hst) as Hst0.
  destruct k as [|k]; simpl in Hk, Hs.
  - injection Hk as <-. by injection Hs as <-.
  - by apply (IH s0 (pollTick w h mode s0 st) k st' s).
Qed.

Lemma Forall2_fmap_eq {A B} (f : A → B) (R : A → A → Prop) l k :
  (∀ x y, R x y → f x = f y) → Forall2 R l k → f <$> l = f <$> k.
Proof.
  intros Hf. induction 1 as [|x y l k Hxy _ IH]; [done|].
  by rewrite !fmap_cons, (Hf _ _ Hxy), IH.
Qed.

(** X11: during a run with a loaded image (the overlay cleared, then poll
    ticks on a stream that only grows), after every tick the overlay holds
    exactly one group per box decoded from that tick's snapshot, the cursor
    equals that count, and each group has the rectangle and the label of
    the box at its index; outside ['document'] mode the groups are exactly
    the paint of the current decode. *)
Theorem poll_overlay_tracks_decode (w h : float) (mode : option jsstring)
    (snapshots : list jsstring) (k : nat) (st : overlay) (s : jsstring) :
  truthyNumber w = true → truthyNumber h = true →
  growingStream [] snapshots →
  pollRun w h mode snapshots clearOverlay !! k = Some st →
  snapshots !! k = Some s →
  lastBoxCount st = length (parseBoxesFromTokens s false)
  ∧ length (children st) = length (parseBoxesFromTokens s false)
  ∧ Forall2 (λ g b, geometry g = geometry (paintBox w h mode b)
                    ∧ displayText g = displayText (paintBox w h mode b))
      (children st) (parseBoxesFromTokens s false)
  ∧ (mode ≠ Some (js "document") →
       children st = paintBox w h mode <$> parseBoxesFromTokens s false).
Proof.
  intros Hw Hh Hg Hk Hs.
  assert (paintedFor w h mode [] clearOverlay) as Hinit.
  { exists []. by split_and!. }
  destruct (pollRun_paintedFor w h mode snapshots [] clearOverlay k st s
              Hw Hh Hg Hinit Hk Hs) as (bs & Hc & Hn & Hbs).
  pose proof (Forall2_length _ _ _ Hbs) as Hlen.
  split_and!.
  - lia.
  - rewrite Hc, length_fmap. lia.
  - rewrite Hc. apply Forall2_fmap_l.
    eapply Forall2_impl; [exact Hbs|]. intros b1 b2 Hsame. simpl.
    by apply paintBox_sameRegion.
  - intros Hmode. rewrite Hc.
    apply (Forall2_fmap_eq _ sameRegion); [|done].
    intros b1 b2. by apply paintBox_sameRegion_eq.
Qed.

Lemma poll_overlay_tracks_decode_witness :
  let s1 := js "<|ref|>title<|/ref|><|det|>[[0,0,10,10]]<|/det|>Hel" in
  let s2 := s1 ++ js "lo<|ref|>abc<|/ref|><|det|>[[1,2,3,4]]<|/det|>" in
  let mode := Some (js "ocr") in
  let st := pollTick 800 600 mode s2 (pollTick 800 600 mode s1 clearOverlay) in
  lastBoxCount st = length (parseBoxesFromTokens s2 false)
  ∧ children st = paintBox 800 600 mode <$> parseBoxesFromTokens s2 false.
Proof.
  intros s1 s2 mode st.
  assert (growingStream [] [s1; s2]) as Hg.
  { exact (conj (prefix_nil _) (conj (ex_intro _ _ eq_refl) I)). }
  assert (pollRun 800 600 mode [s1; s2] clearOverlay !! 1 = Some st) as Hk
    by reflexivity.
  pose proof (poll_overlay_tracks_decode 800 600 mode [s1; s2] 1 st s2
                eq_refl eq_refl Hg Hk eq_refl) as (H1 & _ & _ & H4).
  split; [exact H1|]. apply H4. by vm_compute.
Defined.

Lemma finalRender_overlay (w h : float) mode tokens st :
  truthyNumber w = true → truthyNumber h = true → tokens ≠ [] →
  finalRender w h mode tokens st
  = mkOverlay
      (match viewBox st with
       | Some v => Some v
       | None => match parseBoxesFromTokens tokens true with
                 | [] => None
                 | _ => Some (w, h)
                 end
       end)
      (paintBox w h mode <$> parseBoxesFromTokens tokens true)
      (length (parseBoxesFromTokens tokens true)).
Proof.
  intros Hw Hh Ht. unfold finalRender.
  destruct tokens as [|x u]; [done|]. rewrite Hw, Hh. simpl.
  destruct (parseBoxesFromTokens (x :: u) true) as [|b bs] eqn:HD.
  - rewrite renderBoxes_empty. by destruct (viewBox st).
  - rewrite renderBoxes_paints by done. simpl. by destruct (viewBox st).
Qed.

(** X12: the final render, with a loaded image and a non-empty stream,
    leaves in the overlay exactly the paint of every box of the complete
    decode, once each and in order, with the cursor at their count, whatever
    was painted before; doing it again changes nothing. *)
Theorem final_render_repaints_all (w h : float) (mode : option jsstring)
    (tokens : jsstring) (st : overlay) :
  truthyNumber w = true → truthyNumber h = true → tokens ≠ [] →
  children (finalRender w h mode tokens st)
  = paintBox w h mode <$> parseBoxesFromTokens tokens true
  ∧ lastBoxCount (finalRender w h mode tokens st)
    = length (parseBoxesFromTokens tokens true)
  ∧ finalRender w h mode tokens (finalRender w h mode tokens st)
    = finalRender w h mode tokens st.
Proof.
  intros Hw Hh Ht. rewrite !finalRender_overlay by done. simpl.
  split_and!; try done.
  destruct (viewBox st); [done|].
  by destruct (parseBoxesFromTokens tokens true).
Qed.

Lemma final_render_repaints_all_witness :
  let tokens := js "<|ref|>title<|/ref|><|det|>[[0,0,10,10]]<|/det|>Hello" in
  let stale := mkOverlay (Some (800, 600)%float) [] 7 in
  children (finalRender 800 600 (Some (js "document")) tokens stale)
  = paintBox 800 600 (Some (js "document"))
      <$> parseBoxesFromTokens tokens true.
Proof.
  intros tokens stale.
  refine (proj1 (final_render_repaints_all 800 600 (Some (js "document"))
                   tokens stale eq_refl eq_refl _)).
  by vm_compute.
Defined.

Lemma paintBox_geometry w h mode b :
  geometry (paintBox w h mode b)
  = (let '(sx1, sy1, sx2, sy2) := scaleBox b w h in
     (sx1, sy1, (sx2 - sx1)%float, (sy2 - sy1)%float)).
Proof.
  unfold geometry, paintBox. destruct (scaleBox b w h) as [[[??]?]?].
  by repeat case_decide.
Qed.

Lemma drawBox_drawnAs measureText w h mode b :
  drawBox measureText w h b
  = drawnAs (measureText b) (paintBox w h mode b) (labelBg w h mode b).
Proof.
  unfold drawBox, drawnAs, labelBg, paintBox.
  destruct (scaleBox b w h) as [[[sx1 sy1] sx2] sy2].
  by repeat case_decide.
Qed.

Lemma strokedRects_drawBox measureText w h bs :
  strokedRects (bs ≫= drawBox measureText w h)
  = (λ b, let '(x1, y1, x2, y2) := scaleBox b w h in
          (x1, y1, (x2 - x1)%float, (y2 - y1)%float)) <$> bs.
Proof.
  unfold strokedRects.
  induction bs as [|b bs IH]; [done|].
  rewrite bind_cons, bind_app, IH, fmap_cons. unfold drawBox at 1.
  by destruct (scaleBox b w h) as [[[sx1 sy1] sx2] sy2].
Qed.

(** X13: the static snapshot and the final overlay agree box by box. With
    an image selected, [viewBoxesImage] draws the image and then, for every
    box of the complete decode in order, fills and strokes the rectangle of
    the group that the final render leaves in the overlay at the same index,
    and puts the same label text at the place of the overlay's label
    background; only the width of that background differs, measured by the
    canvas where the overlay counts 7 per code unit. Without a selected
    image it draws nothing. *)
Theorem snapshot_matches_overlay (w h : float) (mode : option jsstring)
    (path tokens : jsstring) (measureText : box → jsstring → float)
    (st : overlay) :
  truthyNumber w = true → truthyNumber h = true →
  tokens ≠ [] → path ≠ [] →
  let boxes := parseBoxesFromTokens tokens true in
  children (finalRender w h mode tokens st) = paintBox w h mode <$> boxes
  ∧ viewBoxesCanvas (Some path) (Some tokens) measureText w h
    = Some (DrawImage
            :: (boxes ≫= λ b, drawnAs (measureText b) (paintBox w h mode b)
                               (labelBg w h mode b)))
  ∧ viewBoxesImage (Some tokens) w h
    = geometry <$> children (finalRender w h mode tokens st)
  ∧ (∀ calls,
       viewBoxesCanvas (Some path) (Some tokens) measureText w h
       = Some calls →
       strokedRects calls = viewBoxesImage (Some tokens) w h)
  ∧ viewBoxesCanvas None (Some tokens) measureText w h = None.
Proof.
  intros Hw Hh Ht Hp boxes.
  rewrite finalRender_overlay by done. cbn [children].
  destruct tokens as [|x u]; [done|]. destruct path as [|y p]; [done|].
  unfold viewBoxesCanvas, viewBoxesImage. fold boxes.
  split_and!; [done| | | |done].
  - do 2 f_equal. induction boxes as [|b bs IH]; [done|].
    by rewrite !bind_cons, IH, (drawBox_drawnAs _ _ _ mode).
  - rewrite <- list_fmap_compose. apply list_fmap_ext.
    intros i b _. simpl. by rewrite paintBox_geometry.
  - intros calls [= <-]. apply (strokedRects_drawBox measureText w h boxes).
Qed.

Lemma snapshot_matches_overlay_witness :
  let tokens := js "<|ref|>title<|/ref|><|det|>[[0,0,999,999]]<|/det|>Hello" in
  let measureText := λ (_ : box) (t : jsstring), 30%float in
  let b := mkBox (js "title") (js "Hello") true (js "title")
             0%float 0%float 999%float 999%float true in
  viewBoxesCanvas (Some (js "page.png")) (Some tokens) measureText 800 600
  = Some [ DrawImage;
           FillRect 0 0 800 600; StrokeRect 0 0 800 600;
           FillRect 0 0 38 18; FillText (js "title") 4 13 ]
  ∧ children (finalRender 800 600 None tokens clearOverlay)
    = [paintBox 800 600 None b]
  ∧ viewBoxesImage (Some tokens) 800 600
    = geometry <$> children (finalRender 800 600 None tokens clearOverlay).
Proof.
  intros tokens measureText b.
  assert (tokens ≠ []) as Ht by (by vm_compute).
  assert (js "page.png" ≠ []) as Hp by (by vm_compute).
  assert (parseBoxesFromTokens tokens true = [b]) as Hb by (by vm_compute).
  pose proof (snapshot_matches_overlay 800 600 None (js "page.png") tokens
                measureText clearOverlay eq_refl eq_refl Ht Hp) as H.
  cbv zeta in H. rewrite Hb in H.
  destruct H as (Hchildren & Hcanvas & Himage & _).
  split_and!; [|exact Hchildren|exact Himage].
  rewrite Hcanvas. by vm_compute.
Defined.

(** ** Interaction in ['document'] mode *)

Lemma paintBox_document w h b :
  isClickable (paintBox w h (Some (js "document")) b)
  = isType b && isComplete b && nonEmpty (textContent b)
  ∧ copyText (paintBox w h (Some (js "document")) b) = textContent b
  ∧ dimmed (paintBox w h (Some (js "document")) b)
    = negb (isType b && isComplete b && nonEmpty (textContent b))
      && isType b && negb (isComplete b).
Proof.
  unfold paintBox. destruct (scaleBox b w h) as [[[??]?]?].
  rewrite decide_False by (intros ?; by apply mode_ocr_ne_document).
  rewrite decide_True by done. simpl.
  rewrite length_pos_nonEmpty, !andb_true_r. done.
Qed.

Lemma complete_decode_isComplete text b :
  b ∈ parseBoxesFromTokens text true →
  isComplete b = nonEmpty (textContent b).
Proof.
  intros (i & _ & Hb)%parseBoxes_elem.
  apply processMatch_Some in Hb as (_ & _ & _ & _ & _ & _ & _ & ->).
  by case_decide.
Qed.

(** X14: once the stream is complete, in ['document'] mode a box is
    clickable iff it is a category box with non-empty trailing text, a click
    copies exactly that text, and the only boxes left dimmed are the category
    boxes without any text. *)
Theorem document_final_interaction (w h : float) (text : jsstring) (b : box) :
  b ∈ parseBoxesFromTokens text true →
  isClickable (paintBox w h (Some (js "document")) b)
  = isType b && nonEmpty (textContent b)
  ∧ copyText (paintBox w h (Some (js "document")) b) = textContent b
  ∧ dimmed (paintBox w h (Some (js "document")) b)
    = isType b && negb (nonEmpty (textContent b)).
Proof.
  intros Hb. destruct (paintBox_document w h b) as (-> & -> & ->).
  rewrite (complete_decode_isComplete text b Hb).
  by destruct (isType b), (nonEmpty (textContent b)).
Qed.

Lemma document_final_interaction_witness :
  let text := js "<|ref|>title<|/ref|><|det|>[[0,0,10,10]]<|/det|>Hello" in
  let b := mkBox (js "title") (js "Hello") true (js "title")
             0%float 0%float 10%float 10%float true in
  isClickable (paintBox 800 600 (Some (js "document")) b)
  = isType b && nonEmpty (textContent b)
  ∧ copyText (paintBox 800 600 (Some (js "document")) b) = textContent b
  ∧ dimmed (paintBox 800 600 (Some (js "document")) b)
    = isType b && negb (nonEmpty (textContent b)).
Proof.
  intros text b.
  assert (b ∈ parseBoxesFromTokens text true) as Hb.
  { vm_compute. constructor. }
  exact (document_final_interaction 800 600 text b Hb).
Defined.

(** X15: while the stream is in progress, the box of the last raw match is
    never complete; in ['document'] mode it is painted not clickable, and
    dimmed when it is a category box, however much text already follows
    it. *)
Theorem newest_region_waits (w h : float) (text : jsstring) (b : box) :
  lastMatchDecodes text →
  last (parseBoxesFromTokens text false) = Some b →
  isComplete b = false
  ∧ isClickable (paintBox w h (Some (js "document")) b) = false
  ∧ dimmed (paintBox w h (Some (js "document")) b) = isType b.
Proof.
  destruct (paintBox_document w h b) as (-> & _ & ->).
  rewrite (lastMatchDecodes_is_Some text false), (parseBoxes_split text false).
  cbn zeta. intros [bl Hbl]. rewrite Hbl. simpl. rewrite last_snoc.
  intros [= ->].
  apply processMatch_Some in Hbl as (m & Hm & _ & _ & _ & _ & _ & Hc).
  apply lookup_lt_Some in Hm. rewrite decide_False in Hc by lia.
  simpl in Hc. rewrite Hc. split; [done|].
  by rewrite !andb_false_r, andb_true_r.
Qed.

Lemma newest_region_waits_witness :
  let text :=
    js "<|ref|>title<|/ref|><|det|>[[0,0,10,10]]<|/det|>Hello world" in
  let b := mkBox (js "title") (js "Hello world") true (js "title")
             0%float 0%float 10%float 10%float false in
  isComplete b = false
  ∧ isClickable (paintBox 800 600 (Some (js "document")) b) = false
  ∧ dimmed (paintBox 800 600 (Some (js "document")) b) = isType b.
Proof.
  intros text b.
  assert (lastMatchDecodes text) as Hlast.
  { exists (MatchData.mk (js "title") (js "0,0,10,10") 0 48).
    split; by vm_compute. }
  assert (last (parseBoxesFromTokens text false) = Some b) as Hb
    by (by vm_compute).
  exact (newest_region_waits 800 600 text b Hlast Hb).
Defined.

(** ** The text panel during a run *)

(** What the panel shows of a snapshot: the extracted text in ['ocr'] mode,
    the raw stream otherwise. *)
Lemma pollText_bound mode prev s panel :
  prev `prefix_of` s →
  panel `prefix_of`
    (if decide (mode = Some (js "ocr")) then extractTextFromTokens prev
     else prev) →
  panel `prefix_of` pollText mode s panel
  ∧ pollText mode s panel `prefix_of`
      (if decide (mode = Some (js "ocr")) then extractTextFromTokens s
       else s).
Proof.
  intros [k ->] Hpanel. unfold pollText.
  assert (panel `prefix_of`
            (if decide (mode = Some (js "ocr"))
             then extractTextFromTokens (prev ++ k) else prev ++ k)) as Hnew.
  { etrans; [exact Hpanel|]. case_decide.
    - apply extractText_prefix.
    - by apply prefix_app_r. }
  destruct (prev ++ k) as [|x u] eqn:Hs; [done|].
  case_decide; [|done].
  destruct (extractTextFromTokens (x :: u)); done.
Qed.

(** X16: in a run on a stream that only grows, the text panel never takes
    back what it has shown: after every poll tick the old panel text is a
    prefix of the new one, in ['ocr'] mode (extracted text) as in every
    other mode (raw stream). *)
Theorem poll_text_only_grows (mode : option jsstring)
    (snapshots : list jsstring) (i : nat) (a b : jsstring) :
  growingStream [] snapshots →
  ([] :: pollTextRun mode snapshots []) !! i = Some a →
  ([] :: pollTextRun mode snapshots []) !! S i = Some b →
  a `prefix_of` b.
Proof.
  assert (∀ snaps prev panel j x y,
            growingStream prev snaps →
            panel `prefix_of`
              (if decide (mode = Some (js "ocr"))
               then extractTextFromTokens prev else prev) →
            (panel :: pollTextRun mode snaps panel) !! j = Some x →
            (panel :: pollTextRun mode snaps panel) !! S j = Some y →
            x `prefix_of` y) as Hgen.
  { induction snaps as [|s rest IH]; intros prev panel j x y Hg Hp Hx Hy.
    { by destruct j. }
    destruct Hg as [Hpre Hg].
    destruct (pollText_bound mode prev s panel Hpre Hp) as [Hup Hbound].
    destruct j as [|j]; simpl in Hx, Hy.
    - injection Hx as <-. by injection Hy as <-.
    - by apply (IH s (pollText mode s panel) j x y). }
  intros Hg. apply (Hgen snapshots [] [] i a b Hg). apply prefix_nil.
Qed.

Lemma poll_text_only_grows_witness :
  let s1 := js "<|ref|>Hello<|/ref|><|det|>[[0,0,10,10]]<|/det|>" in
  let s2 := s1 ++ js "<|ref|>world<|/ref|><|det|>[[1,2,3,4]]<|/det|>" in
  let mode := Some (js "ocr") in
  pollTextRun mode [s1; s2] [] = [js "Hello"; js "Hello" ++ 10%N :: js "world"]
  ∧ js "Hello" `prefix_of` js "Hello" ++ 10%N :: js "world".
Proof.
  intros s1 s2 mode. split; [by vm_compute|].
  assert (growingStream [] [s1; s2]) as Hg.
  { exact (conj (prefix_nil _) (conj (ex_intro _ _ eq_refl) I)). }
  refine (poll_text_only_grows mode [s1; s2] 1 _ _ Hg _ _); by vm_compute.
Defined.

(** ** The label background *)

Lemma mathMax_zero y :
  mathMax 0 y = 0%float
  ∨ (mathMax 0 y = y ∧ (0 <? mathMax 0 y)%float = true)
  ∨ PrimFloat.is_nan (mathMax 0 y) = true.
Proof.
  unfold mathMax. change (PrimFloat.is_nan 0) with false.
  change (PrimFloat.is_zero 0 && PrimFloat.get_sign 0) with false. simpl.
  destruct (PrimFloat.is_nan y); [by right; right|].
  destruct (0 <? y)%float eqn:Hpos; [by right; left|].
  left. by destruct (y <? 0)%float.
Qed.

(** X17: the label of a box starts at the left edge of the box and is never
    placed above the top of the image: its [y] is zero, or the positive
    value 18 units above the box, or [NaN]; and for a decoded box it is at
    most 239 units wide and 18 high. *)
Theorem label_stays_in_view (w h : float) (mode : option jsstring)
    (text : jsstring) (c : bool) (b : box) :
  b ∈ parseBoxesFromTokens text c →
  let '(x, y, width, height) := labelBg w h mode b in
  x = rectX (paintBox w h mode b)
  ∧ (y = 0%float
     ∨ (y = (rectY (paintBox w h mode b) - 18)%float ∧ (0 <? y)%float = true)
     ∨ PrimFloat.is_nan y = true)
  ∧ width = length (displayText (paintBox w h mode b)) * 7 + 8
  ∧ width ≤ 239 ∧ height = 18.
Proof.
  intros Hb.
  destruct (decoded_displayText w h mode text c b Hb) as [Hlen _].
  pose proof (paintBox_geometry w h mode b) as Hgeo.
  unfold labelBg, geometry in *.
  destruct (scaleBox b w h) as [[[sx1 sy1] sx2] sy2].
  injection Hgeo as -> -> _ _.
  split_and!; [done|apply mathMax_zero|lia|lia|done].
Qed.

Lemma label_stays_in_view_witness :
  let text := js "<|ref|>title<|/ref|><|det|>[[100,10,500,60]]<|/det|>" in
  let b := mkBox (js "title") [] true (js "title")
             100%float 10%float 500%float 60%float false in
  let '(x, y, width, height) := labelBg 999 999 None b in
  x = rectX (paintBox 999 999 None b)
  ∧ (y = 0%float
     ∨ (y = (rectY (paintBox 999 999 None b) - 18)%float
        ∧ (0 <? y)%float = true)
     ∨ PrimFloat.is_nan y = true)
  ∧ width = length (displayText (paintBox 999 999 None b)) * 7 + 8
  ∧ width ≤ 239 ∧ height = 18.
Proof.
  intros text b.
  assert (b ∈ parseBoxesFromTokens text false) as Hb.
  { vm_compute. constructor. }
  exact (label_stays_in_view 999 999 None text false b Hb).
Defined.

(** ** Image references of the Markdown result *)

Lemma giveBack_Some least cont s k caps n :
  giveBack least cont s k = Some (caps, n) →
  ∃ j caps' n', least ≤ j ≤ k ∧ cont (drop j s) = Some (caps', n')
                ∧ caps = take j s :: caps' ∧ n = j + n'.
Proof.
  induction k as [|k IH]; cbn [giveBack]; case_decide; try done.
  - destruct (cont (drop 0 s)) as [[caps' n']|] eqn:Hc; [|done].
    intros [= <- <-]. exists 0, caps', n'. split_and!; (lia || done).
  - destruct (cont (drop (S k) s)) as [[caps' n']|] eqn:Hc.
    + intros [= <- <-]. exists (S k), caps', n'. split_and!; (lia || done).
    + intros (j & c & m & ? & ? & ? & ?)%IH. exists j, c, m.
      split_and!; (lia || done).
Qed.

Lemma giveBack_first least cont s k caps n :
  least ≤ k → cont (drop k s) = Some (caps, n) →
  giveBack least cont s k = Some (take k s :: caps, k + n).
Proof.
  intros Hk Hc. destruct k; cbn [giveBack]; rewrite decide_True by done;
    by rewrite Hc.
Qed.

Lemma imgMatch_Chars l p s caps n :
  imgMatch (Chars l :: p) s = Some (caps, n)
  ↔ ∃ r n', s = l ++ r ∧ imgMatch p r = Some (caps, n') ∧ n = length l + n'.
Proof.
  simpl. destruct (startsWith l s) eqn:Hs.
  - apply startsWith_spec in Hs as [r ->]. rewrite drop_app_length. split.
    + destruct (imgMatch p r) as [[c m]|] eqn:Hm; [|done].
      intros [= <- <-]. by exists r, m.
    + intros (r' & n' & <-%app_inv_head & -> & ->). done.
  - split; [done|]. intros (r & n' & -> & _).
    assert (startsWith l (l ++ r) = true) by (apply startsWith_spec; eauto).
    congruence.
Qed.

(** A negated class followed by the excluded character: the group takes
    everything up to the first occurrence of that character, and nothing
    else can match. *)
Lemma imgMatch_Group c least l p s caps n :
  imgMatch (GroupNot c least :: Chars (c :: l) :: p) s = Some (caps, n)
  ↔ ∃ g r caps' n',
      s = g ++ c :: r ∧ least ≤ length g ∧ (c ∉ g)
      ∧ imgMatch (Chars (c :: l) :: p) (c :: r) = Some (caps', n')
      ∧ caps = g :: caps' ∧ n = length g + n'.
Proof.
  change (imgMatch (GroupNot c least :: Chars (c :: l) :: p) s)
    with (giveBack least (imgMatch (Chars (c :: l) :: p)) s
            (length (takeWhile (λ x, negb (x =? c)%N) s))).
  set (run := takeWhile (λ x, negb (x =? c)%N) s).
  split.
  - intros (j & caps' & n' & Hj & Hc & -> & ->)%giveBack_Some.
    pose proof Hc as (r & m & Hd & _)%imgMatch_Chars.
    exists (take j s), (l ++ r), caps', n'.
    pose proof (takeWhile_length (λ x, negb (x =? c)%N) s) as Hrun.
    fold run in Hrun.
    split_and!.
    + rewrite <- (take_drop j s) at 1. by rewrite Hd.
    + rewrite length_take. lia.
    + rewrite (take_takeWhile (λ x, negb (x =? c)%N)) by (fold run; lia).
      intros Hin%elem_of_take.
      destruct Hin as (i & Hi & _).
      pose proof (takeWhile_Forall (λ x, negb (x =? c)%N) s) as HF.
      rewrite Forall_lookup in HF. specialize (HF _ _ Hi). simpl in HF.
      by rewrite N.eqb_refl in HF.
    + change (c :: l ++ r) with ((c :: l) ++ r). by rewrite <- Hd.
    + done.
    + rewrite length_take. lia.
  - intros (g & r & caps' & n' & -> & Hg & Hc & Hm & -> & ->).
    assert (run = g) as Hrun.
    { unfold run. apply takeWhile_stop; [|by rewrite N.eqb_refl].
      apply Forall_forall. intros x Hx. apply negb_true_iff, N.eqb_neq.
      by intros ->. }
    rewrite Hrun.
    rewrite (giveBack_first _ _ _ _ caps' n').
    + by rewrite take_app_length.
    + done.
    + by rewrite drop_app_length.
Qed.

Lemma imageRef_length alt name :
  length (imageRef alt name) = 12 + length alt + length name.
Proof.
  unfold imageRef. rewrite !length_app.
  change (length (js "![")) with 2.
  change (length (js "](images/")) with 9.
  change (length (js ")")) with 1. lia.
Qed.

(** What [imageRegex] matches at the start of a string: exactly one image
    reference; the captures are its alternative text and its file name. *)
Lemma imageRegex_match s caps n :
  imgMatch imageRegex s = Some (caps, n)
  ↔ ∃ alt name rest,
      s = imageRef alt name ++ rest
      ∧ caps = [alt; name]
      ∧ n = length (imageRef alt name)
      ∧ (93%N ∉ alt) ∧ name ≠ [] ∧ (41%N ∉ name).
Proof.
  split.
  - unfold imageRegex, imageRef.
    change (js "](images/") with (93%N :: js "(images/").
    change (js ")") with [41%N].
    intros (r1 & n1 & -> & H1 & ->)%imgMatch_Chars.
    apply imgMatch_Group in H1
      as (g1 & r2 & c1 & n2 & -> & ? & ? & H2 & -> & ->).
    apply imgMatch_Chars in H2 as (r3 & n3 & Hr3 & H3 & ->).
    apply imgMatch_Group in H3
      as (g2 & r4 & c2 & n4 & -> & ? & ? & H4 & -> & ->).
    apply imgMatch_Chars in H4 as (r5 & n5 & Hr5 & H5 & ->).
    simpl in H5. injection H5 as <- <-.
    exists g1, g2, r5. rewrite Hr3, Hr5.
    split_and!; try done.
    + by rewrite <- !app_assoc.
    + rewrite !length_app. simpl. lia.
    + intros ->. simpl in *. lia.
  - intros (alt & name & rest & -> & -> & -> & ? & ? & ?).
    rewrite imageRef_length. unfold imageRegex, imageRef.
    change (js "](images/") with (93%N :: js "(images/").
    change (js ")") with [41%N].
    rewrite <- !app_assoc.
    apply imgMatch_Chars. eexists _, (10 + length alt + length name).
    split; [done|]. split; [|simpl; lia].
    apply imgMatch_Group.
    eexists alt, _, [name], (10 + length name).
    split; [done|]. split; [lia|]. split; [done|].
    split; [|split; [done|lia]].
    apply imgMatch_Chars. eexists _, (1 + length name).
    split; [done|]. split; [|simpl; lia].
    apply imgMatch_Group. eexists name, _, [], 1.
    split; [done|]. split; [destruct name; [done|simpl; lia]|].
    split; [done|]. split; [|split; [done|lia]].
    apply imgMatch_Chars. eexists rest, 0. split; [done|]. by split.
Qed.

(** A reference starts with an exclamation mark. *)
Lemma imageRegex_head s caps n :
  imgMatch imageRegex s = Some (caps, n) → ∃ r, s = 33%N :: r.
Proof.
  intros (alt & name & rest & -> & _)%imageRegex_match. by eexists.
Qed.

Lemma imgExecFrom_Some p s : ∀ pos i caps n,
  imgExecFrom p s pos = Some (i, caps, n)
  ↔ ∃ d, i = pos + d ∧ d ≤ length s
         ∧ imgMatch p (drop d s) = Some (caps, n)
         ∧ ∀ d', d' < d → imgMatch p (drop d' s) = None.
Proof.
  assert (∀ (t : jsstring) pos i caps n c m,
            imgMatch p t = Some (c, m) →
            Some (pos, c, m) = Some (i, caps, n)
            ↔ ∃ d, i = pos + d ∧ d ≤ length t
                   ∧ imgMatch p (drop d t) = Some (caps, n)
                   ∧ ∀ d', d' < d → imgMatch p (drop d' t) = None) as Hhit.
  { intros t pos i caps n c m Hm. split.
    - intros [= <- <- <-]. exists 0. rewrite Nat.add_0_r.
      split_and!; [done|lia|done|intros; lia].
    - intros (d & -> & Hd & Hdm & Hbefore). destruct d as [|d].
      + rewrite Nat.add_0_r. rewrite drop_0 in Hdm. congruence.
      + specialize (Hbefore 0). rewrite drop_0 in Hbefore.
        rewrite Hbefore in Hm by lia. done. }
  induction s as [|x s IH]; intros pos i caps n; cbn [imgExecFrom].
  - destruct (imgMatch p []) as [[c m]|] eqn:Hm; [by apply Hhit|].
    split; [done|]. intros (d & -> & Hd & Hdm & _).
    rewrite drop_nil in Hdm. congruence.
  - destruct (imgMatch p (x :: s)) as [[c m]|] eqn:Hm; [by apply Hhit|].
    rewrite IH. split.
    + intros (d & -> & Hd & Hdm & Hbefore). exists (S d).
      split_and!; [lia|simpl; lia|done|].
      intros [|d'] Hd'; [done|]. simpl. apply Hbefore. lia.
    + intros (d & -> & Hd & Hdm & Hbefore).
      destruct d as [|d]; [rewrite drop_0 in Hdm; congruence|].
      exists d. split_and!; [lia|simpl in Hd; lia|done|].
      intros d' Hd'. apply (Hbefore (S d')). lia.
Qed.

Lemma imgExecFrom_None p s : ∀ pos,
  imgExecFrom p s pos = None
  ↔ ∀ d, d ≤ length s → imgMatch p (drop d s) = None.
Proof.
  induction s as [|x s IH]; intros pos; simpl.
  - destruct (imgMatch p []) as [[c m]|] eqn:Hm.
    + split; [done|]. intros H. specialize (H 0). rewrite drop_0 in H.
      rewrite H in Hm by lia. done.
    + split; [|done]. intros _ d _. by rewrite drop_nil.
  - destruct (imgMatch p (x :: s)) as [[c m]|] eqn:Hm.
    + split; [done|]. intros H. specialize (H 0). rewrite drop_0 in H.
      rewrite H in Hm by lia. done.
    + rewrite IH. split.
      * intros H [|d] Hd; [done|]. simpl. apply H. lia.
      * intros H d Hd. apply (H (S d)). lia.
Qed.

Lemma imgExec_Some p text lastIndex i caps n :
  imgExec p text lastIndex = Some (i, caps, n)
  ↔ lastIndex ≤ i ≤ length text
    ∧ imgMatch p (drop i text) = Some (caps, n)
    ∧ ∀ k, lastIndex ≤ k < i → imgMatch p (drop k text) = None.
Proof.
  unfold imgExec. case_decide as Hle.
  - rewrite imgExecFrom_Some. rewrite length_drop. split.
    + intros (d & -> & Hd & Hm & Hbefore). rewrite drop_drop in Hm.
      split_and!; [lia|lia|done|].
      intros k Hk. specialize (Hbefore (k - lastIndex)).
      rewrite drop_drop in Hbefore.
      replace (lastIndex + (k - lastIndex)) with k in Hbefore by lia.
      apply Hbefore. lia.
    + intros (Hi & Hm & Hbefore). exists (i - lastIndex).
      rewrite drop_drop.
      replace (lastIndex + (i - lastIndex)) with i by lia.
      split_and!; [lia|lia|done|].
      intros d' Hd'. rewrite drop_drop. apply Hbefore. lia.
  - split; [done|]. intros (Hi & _). lia.
Qed.

Lemma imgExec_None p text lastIndex :
  imgExec p text lastIndex = None
  ↔ ∀ k, lastIndex ≤ k ≤ length text → imgMatch p (drop k text) = None.
Proof.
  unfold imgExec. case_decide as Hle.
  - rewrite imgExecFrom_None, length_drop. split.
    + intros H k Hk. specialize (H (k - lastIndex)).
      rewrite drop_drop in H.
      replace (lastIndex + (k - lastIndex)) with k in H by lia.
      apply H. lia.
    + intros H d Hd. rewrite drop_drop. apply H. lia.
  - split; [|done]. intros _ k Hk. lia.
Qed.

(** Searching the text behind a prefix finds the same matches, moved by the
    length of the prefix. *)
Lemma imgExec_shift p pre t k :
  imgExec p (pre ++ t) (length pre + k)
  = shiftMatch (length pre) <$> imgExec p t k.
Proof.
  destruct (imgExec p t k) as [[[i caps] n]|] eqn:He; simpl.
  - apply imgExec_Some in He as (Hi & Hm & Hbefore).
    apply imgExec_Some. unfold shiftMatch; simpl.
    rewrite length_app, drop_app_add'; [|done].
    split_and!; [lia|lia|done|].
    intros j Hj. replace j with (length pre + (j - length pre)) by lia.
    rewrite drop_app_add' by done. apply Hbefore. lia.
  - rewrite imgExec_None in He. apply imgExec_None. intros j Hj.
    rewrite length_app in Hj.
    replace j with (length pre + (j - length pre)) by lia.
    rewrite drop_app_add' by done. apply He. lia.
Qed.

(** The loop stops by itself: once the fuel exceeds the text left after
    [lastIndex], more fuel changes nothing. *)
Lemma imageLoop_fuel text : ∀ fuel1 fuel2 lastIndex,
  length text < fuel1 + lastIndex → length text < fuel2 + lastIndex →
  imageLoop fuel1 text lastIndex = imageLoop fuel2 text lastIndex.
Proof.
  assert (∀ lastIndex, length text < lastIndex →
            imgExec imageRegex text lastIndex = None) as Hpast.
  { intros lastIndex Hlt. unfold imgExec. by rewrite decide_False by lia. }
  induction fuel1 as [|fuel1 IH]; intros fuel2 lastIndex H1 H2.
  - destruct fuel2; simpl; [done|]. by rewrite Hpast by lia.
  - destruct fuel2; simpl; [by rewrite Hpast by lia|].
    destruct (imgExec imageRegex text lastIndex) as [[[i caps] n]|] eqn:He;
      [|done].
    apply imgExec_Some in He as (Hi & Hm & _).
    apply imageRegex_match in Hm as (alt & name & rest & _ & _ & -> & _).
    rewrite imageRef_length. f_equal. apply IH; lia.
Qed.

Lemma imageLoop_shift fuel pre t : ∀ k,
  imageLoop fuel (pre ++ t) (length pre + k)
  = shiftMatch (length pre) <$> imageLoop fuel t k.
Proof.
  induction fuel as [|fuel IH]; intros k; simpl; [done|].
  rewrite imgExec_shift.
  destruct (imgExec imageRegex t k) as [[[i caps] n]|]; simpl; [|done].
  unfold shiftMatch at 1; simpl. f_equal.
  rewrite <- Nat.add_assoc. apply IH.
Qed.

(** Every match of the loop is an image reference of the text. *)
Lemma imageLoop_sound fuel text : ∀ lastIndex i caps n,
  (i, caps, n) ∈ imageLoop fuel text lastIndex →
  ∃ alt name, caps = [alt; name] ∧ refersTo text alt name
              ∧ drop i text = imageRef alt name ++ drop (i + n) text
              ∧ n = length (imageRef alt name) ∧ i + n ≤ length text.
Proof.
  induction fuel as [|fuel IH]; intros lastIndex i caps n; simpl.
  { by intros ?%elem_of_nil. }
  destruct (imgExec imageRegex text lastIndex) as [[[i0 caps0] n0]|] eqn:He;
    [|by intros ?%elem_of_nil].
  intros [[= -> -> ->]|Hin]%elem_of_cons; [|by eapply IH].
  apply imgExec_Some in He as (Hi & Hm & _).
  apply imageRegex_match in Hm
    as (alt & name & rest & Hd & -> & -> & ? & ? & ?).
  assert (drop (i0 + length (imageRef alt name)) text = rest) as Hrest.
  { rewrite <- drop_drop, Hd. by rewrite drop_app_length. }
  exists alt, name. split_and!; [done| |by rewrite Hrest|done|].
  - exists (take i0 text), rest. split_and!; [|done..].
    by rewrite <- Hd, take_drop.
  - apply (f_equal length) in Hd. rewrite length_drop, length_app in Hd. lia.
Qed.

(** The first reference of a text, when no exclamation mark comes before
    it, and the matches of the rest. *)
Lemma imageMatches_first pre alt name rest :
  33%N ∉ pre → 93%N ∉ alt → name ≠ [] → 41%N ∉ name →
  imageMatches (pre ++ imageRef alt name ++ rest)
  = (length pre, [alt; name], length (imageRef alt name))
      :: (shiftMatch (length pre + length (imageRef alt name))
            <$> imageMatches rest).
Proof.
  intros Hpre Halt Hname Hclose. unfold imageMatches.
  set (later := imageLoop (S (length rest)) rest 0).
  cbn [imageLoop].
  assert (imgExec imageRegex (pre ++ imageRef alt name ++ rest) 0
          = Some (length pre, [alt; name], length (imageRef alt name)))
    as ->.
  { apply imgExec_Some. split_and!.
    - lia.
    - rewrite length_app. lia.
    - rewrite drop_app_length. apply imageRegex_match. by exists alt, name, rest.
    - intros k Hk.
      destruct (imgMatch imageRegex
                  (drop k (pre ++ imageRef alt name ++ rest)))
        as [[c m]|] eqn:Hm; [|done].
      exfalso. apply imageRegex_head in Hm as [r Hr].
      apply Hpre. apply (list_elem_of_lookup_2 _ k).
      apply (f_equal (λ l, l !! 0)) in Hr. rewrite lookup_drop in Hr.
      rewrite Nat.add_0_r in Hr. by rewrite lookup_app_l in Hr by lia. }
  f_equal.
  rewrite app_assoc.
  replace (length pre + length (imageRef alt name))
    with (length (pre ++ imageRef alt name) + 0)
    by (rewrite length_app; lia).
  rewrite imageLoop_shift. rewrite Nat.add_0_r. f_equal.
  subst later. apply imageLoop_fuel; rewrite ?length_app, ?imageRef_length; lia.
Qed.

Lemma stringReplace_shift f pre t ms : ∀ k,
  stringReplace f (pre ++ t) (length pre + k) (shiftMatch (length pre) <$> ms)
  = stringReplace f t k ms.
Proof.
  induction ms as [|[[i caps] n] ms IH]; intros k; simpl.
  - by rewrite drop_app_add'.
  - rewrite drop_app_add' by done.
    replace (length pre + i - (length pre + k)) with (i - k) by lia.
    do 2 f_equal. rewrite <- Nat.add_assoc. apply IH.
Qed.

(** No reference anywhere: the loop finds nothing. *)
Lemma imageMatches_nil text :
  imageMatches text = [] ↔ ∀ alt name, ¬ refersTo text alt name.
Proof.
  unfold imageMatches. cbn [imageLoop]. split.
  - destruct (imgExec imageRegex text 0) as [[[i caps] n]|] eqn:He; [done|].
    intros _ alt name (pre & rest & -> & ? & ? & ?).
    rewrite imgExec_None in He.
    specialize (He (length pre)). rewrite drop_app_length in He.
    rewrite (proj2 (imageRegex_match _ [alt; name]
                      (length (imageRef alt name)))) in He.
    + discriminate He. rewrite length_app. lia.
    + by exists alt, name, rest.
  - intros Hno.
    destruct (imgExec imageRegex text 0) as [[[i caps] n]|] eqn:He; [|done].
    exfalso. apply imgExec_Some in He as (Hi & Hm & _).
    apply imageRegex_match in Hm
      as (alt & name & rest & Hd & _ & _ & ? & ? & ?).
    apply (Hno alt name). exists (take i text), rest.
    split_and!; [|done..]. by rewrite <- Hd, take_drop.
Qed.

Lemma setAdd_fold (names : list jsstring) : ∀ set,
  NoDup set →
  NoDup (foldl setAdd set names)
  ∧ ∀ x, x ∈ foldl setAdd set names ↔ x ∈ set ∨ x ∈ names.
Proof.
  induction names as [|y names IH]; intros set Hset; simpl.
  { split; [done|]. intros x. rewrite elem_of_nil. tauto. }
  assert (NoDup (setAdd set y)) as Hset'.
  { unfold setAdd. case_decide; [done|].
    apply NoDup_app. split_and!; [done| |apply NoDup_singleton].
    intros x Hx ->%list_elem_of_singleton. done. }
  destruct (IH _ Hset') as [Hnd Hin]. split; [done|].
  intros x. rewrite Hin, elem_of_cons. unfold setAdd. case_decide.
  - split; [tauto|]. intros [?|[->|?]]; tauto.
  - rewrite elem_of_app, list_elem_of_singleton. tauto.
Qed.

Lemma imageFiles_elem text name :
  name ∈ imageFiles text
  ↔ ∃ i alt n, (i, [alt; name], n) ∈ imageMatches text.
Proof.
  unfold imageFiles.
  destruct (setAdd_fold ((λ m, m.1.2 !!! 1) <$> imageMatches text) [])
    as [_ Hin]; [constructor|].
  rewrite Hin, elem_of_nil, list_elem_of_fmap. split.
  - intros [[]|([[i caps] n] & -> & Hm)].
    destruct (imageLoop_sound _ _ _ _ _ _ Hm) as (alt & nm & -> & _).
    by exists i, alt, n.
  - intros (i & alt & n & Hm). right. by exists (i, [alt; name], n).
Qed.

(** ** The result on display and in the archive *)

Lemma growingStream_last snaps : ∀ prev (final : jsstring),
  growingStream prev (snaps ++ [final]) →
  growingStream prev snaps ∧ prev `prefix_of` final
  ∧ ∀ s, s ∈ snaps → s `prefix_of` final.
Proof.
  induction snaps as [|s snaps IH]; intros prev final; simpl.
  - intros [Hp _]. split_and!; [done..|]. by intros s ?%elem_of_nil.
  - intros [Hp (Hg & Hs & Hall)%IH]. split_and!; [done..| |].
    + by transitivity s.
    + intros s' [->|?]%elem_of_cons; [done|by apply Hall].
Qed.

(** Every text the panel shows during a run is a prefix of what the mode
    shows of one of the snapshots. *)
Lemma pollTextRun_bound mode snaps : ∀ prev panel p,
  growingStream prev snaps →
  panel `prefix_of`
    (if decide (mode = Some (js "ocr")) then extractTextFromTokens prev
     else prev) →
  p ∈ pollTextRun mode snaps panel →
  ∃ s, s ∈ snaps
       ∧ p `prefix_of`
           (if decide (mode = Some (js "ocr")) then extractTextFromTokens s
            else s).
Proof.
  induction snaps as [|s snaps IH]; intros prev panel p Hg Hp; simpl.
  { by intros ?%elem_of_nil. }
  destruct Hg as [Hpre Hg].
  destruct (pollText_bound mode prev s panel Hpre Hp) as [_ Hbound].
  intros [->|Hin]%elem_of_cons.
  - exists s. split; [left|done].
  - destruct (IH s _ p Hg Hbound Hin) as (s' & ? & ?).
    exists s'. split; [by right|done].
Qed.

(** X18: outside ['document'] mode, and when the server reports the mode
    the run was started in, the text shown when the run has succeeded
    extends every text the panel showed while polling, provided the final
    tokens extend the polled stream: in ['ocr'] mode the extracted text,
    otherwise the raw tokens; and that text is also the one kept for
    copying. *)
Theorem final_text_extends_polled (API_BASE_URL cacheBuster : jsstring)
    (markedLoaded : bool) (mode : option jsstring)
    (snapshots : list jsstring) (tokens result p : jsstring) :
  mode ≠ Some (js "document") →
  growingStream [] (snapshots ++ [tokens]) →
  p ∈ pollTextRun mode snapshots [] →
  ∃ final,
    showResult API_BASE_URL cacheBuster markedLoaded mode (Some tokens) result
    = (final, PanelText final)
    ∧ p `prefix_of` final.
Proof.
  intros Hmode (Hg & _ & Hall)%growingStream_last Hp.
  destruct (pollTextRun_bound mode snapshots [] [] p Hg (prefix_nil _) Hp)
    as (s & [k ->]%Hall & Hbound).
  unfold showResult.
  destruct (decide (mode = Some (js "ocr"))) as [Hocr|Hocr];
    [|rewrite (decide_False (P := mode = Some (js "document"))) by done].
  - destruct (s ++ k) as [|c tokens] eqn:Htok.
    + apply app_eq_nil in Htok as [-> _]. eexists. split; [done|].
      revert Hbound. change (extractTextFromTokens []) with (@nil N).
      intros ->%prefix_nil_inv. apply prefix_nil.
    + eexists. split; [done|]. rewrite <- Htok.
      etransitivity; [exact Hbound|apply extractText_prefix].
  - destruct (s ++ k) as [|c tokens] eqn:Htok.
    + apply app_eq_nil in Htok as [-> _]. eexists. split; [done|].
      revert Hbound. intros ->%prefix_nil_inv. apply prefix_nil.
    + eexists. split; [done|]. rewrite <- Htok.
      etransitivity; [exact Hbound|by apply prefix_app_r].
Qed.

Lemma final_text_extends_polled_witness :
  let s1 := js "<|ref|>Hello<|/ref|><|det|>[[0,0,10,10]]<|/det|>" in
  let s2 := s1 ++ js "<|ref|>world<|/ref|><|det|>[[1,2,3,4]]<|/det|>" in
  let mode := Some (js "ocr") in
  ∃ final,
    showResult (js "http://127.0.0.1:5000") (js "1700000000000") true mode
      (Some s2) (js "Hello world")
    = (final, PanelText final)
    ∧ js "Hello" `prefix_of` final.
Proof.
  intros s1 s2 mode.
  assert (mode ≠ Some (js "document")) as Hmode by (by vm_compute).
  assert (growingStream [] ([s1] ++ [s2])) as Hg.
  { exact (conj (prefix_nil _) (conj (ex_intro _ _ eq_refl) I)). }
  assert (js "Hello" ∈ pollTextRun mode [s1] []) as Hp.
  { vm_compute. constructor. }
  exact (final_text_extends_polled _ _ true mode [s1] s2 _ _ Hmode Hg Hp).
Defined.

(** X19: the archive is made in ['document'] mode only and from a non-empty
    result; [output.md] is that result, unchanged, and the images fetched
    are pairwise distinct addresses under [/outputs/images/], each for a
    file name that an image reference of the result names. *)
Theorem archive_images_referenced (API_BASE_URL : jsstring)
    (currentResultText currentPromptType : option jsstring)
    (markdown : jsstring) (urls : list jsstring) :
  downloadZip API_BASE_URL currentResultText currentPromptType
  = Some (markdown, urls) →
  currentResultText = Some markdown ∧ markdown ≠ []
  ∧ currentPromptType = Some (js "document")
  ∧ NoDup urls
  ∧ ∀ url, url ∈ urls →
      ∃ alt name, url = API_BASE_URL ++ js "/outputs/images/" ++ name
                  ∧ refersTo markdown alt name.
Proof.
  unfold downloadZip. generalize (js "/outputs/images/"). intros dir.
  destruct currentResultText as [[|c text]|]; try done.
  case_decide as Hmode; [|done]. intros [= <- <-].
  split_and!; [done..| |].
  - apply NoDup_fmap_2.
    + intros x y ?%app_inv_head. by eapply app_inv_head.
    + unfold imageFiles. by apply setAdd_fold, NoDup_nil.
  - intros url (name & -> & Hin)%list_elem_of_fmap.
    apply imageFiles_elem in Hin as (i & alt & n & Hm).
    apply imageLoop_sound in Hm as (alt' & name' & [= <- <-] & Href & _).
    by exists alt, name.
Qed.

Lemma archive_images_referenced_witness :
  let api := js "http://127.0.0.1:5000" in
  let text := js "# Page ![a](images/0.jpg) and ![b](images/0.jpg)" in
  downloadZip api (Some text) (Some (js "document"))
  = Some (text, [api ++ js "/outputs/images/" ++ js "0.jpg"])
  ∧ NoDup [api ++ js "/outputs/images/" ++ js "0.jpg"].
Proof.
  intros api text.
  assert (downloadZip api (Some text) (Some (js "document"))
          = Some (text, [api ++ js "/outputs/images/" ++ js "0.jpg"])) as Hz.
  { by vm_compute. }
  split; [exact Hz|].
  exact (proj1 (proj2 (proj2 (proj2
           (archive_images_referenced api _ _ _ _ Hz))))).
Defined.

(** X20: in ['document'] mode with [marked] loaded, an image reference that
    no exclamation mark precedes is rewritten to the address of the image on
    the server, with the cache-busting query; the text before it is kept and
    the text after it is rewritten in the same way. The text kept for
    copying is the result as it came. *)
Theorem first_reference_rewritten (API_BASE_URL cacheBuster : jsstring)
    (pre alt name rest : jsstring) :
  33%N ∉ pre → 93%N ∉ alt → name ≠ [] → 41%N ∉ name →
  displayResults API_BASE_URL cacheBuster true
    (pre ++ imageRef alt name ++ rest) (Some (js "document"))
  = (pre ++ imageRef alt name ++ rest,
     PanelMarkdown
       (pre ++ imageUrlRef API_BASE_URL cacheBuster alt name
          ++ renderedMarkdown API_BASE_URL cacheBuster rest)).
Proof.
  intros Hpre Halt Hname Hclose. unfold displayResults.
  rewrite bool_decide_eq_true_2 by done. cbn [andb]. do 2 f_equal.
  unfold renderedMarkdown. rewrite imageMatches_first by done.
  cbn [stringReplace]. rewrite Nat.sub_0_r, drop_0, take_app_length.
  f_equal. change (imageTemplate API_BASE_URL cacheBuster [alt; name])
    with (imageUrlRef API_BASE_URL cacheBuster alt name). f_equal.
  pose proof (stringReplace_shift (imageTemplate API_BASE_URL cacheBuster)
                (pre ++ imageRef alt name) rest (imageMatches rest) 0) as H.
  by rewrite Nat.add_0_r, <- app_assoc, length_app in H.
Qed.

Lemma first_reference_rewritten_witness :
  let api := js "http://127.0.0.1:5000" in
  let cb := js "1700000000000" in
  displayResults api cb true
    (js "Figure: " ++ imageRef (js "a") (js "0.jpg") ++ js " end")
    (Some (js "document"))
  = (js "Figure: " ++ imageRef (js "a") (js "0.jpg") ++ js " end",
     PanelMarkdown
       (js "Figure: " ++ imageUrlRef api cb (js "a") (js "0.jpg")
          ++ renderedMarkdown api cb (js " end"))).
Proof.
  intros api cb.
  assert (33%N ∉ js "Figure: ") as H1.
  { apply (bool_decide_unpack _). by vm_compute. }
  assert (93%N ∉ js "a") as H2.
  { apply (bool_decide_unpack _). by vm_compute. }
  assert (js "0.jpg" ≠ []) as H3 by (by vm_compute).
  assert (41%N ∉ js "0.jpg") as H4.
  { apply (bool_decide_unpack _). by vm_compute. }
  exact (first_reference_rewritten api cb _ _ _ (js " end") H1 H2 H3 H4).
Defined.

(** X21: a result without any image reference is displayed as it is, and
    its archive fetches no image. *)
Theorem no_reference_no_rewrite (API_BASE_URL cacheBuster : jsstring)
    (text : jsstring) :
  (∀ alt name, ¬ refersTo text alt name) →
  displayResults API_BASE_URL cacheBuster true text (Some (js "document"))
  = (text, PanelMarkdown text)
  ∧ imageFiles text = [].
Proof.
  intros Hno. apply imageMatches_nil in Hno.
  unfold displayResults, renderedMarkdown, imageFiles. rewrite Hno.
  by rewrite bool_decide_eq_true_2 by done.
Qed.

Lemma no_reference_no_rewrite_witness :
  let text := js "See ![x](img/0.jpg) and ![y](images/)" in
  displayResults (js "http://127.0.0.1:5000") (js "1700000000000") true text
    (Some (js "document"))
  = (text, PanelMarkdown text)
  ∧ imageFiles text = [].
Proof.
  intros text.
  assert (∀ alt name, ¬ refersTo text alt name) as Hno.
  { apply imageMatches_nil. by vm_compute. }
  exact (no_reference_no_rewrite (js "http://127.0.0.1:5000")
           (js "1700000000000") text Hno).
Defined.

(** X22: a result that holds an image reference has an archive with at
    least one image, and the file of a reference that no exclamation mark
    precedes is fetched. *)
Theorem reference_reaches_archive (API_BASE_URL : jsstring)
    (pre alt name rest : jsstring) :
  93%N ∉ alt → name ≠ [] → 41%N ∉ name →
  let text := pre ++ imageRef alt name ++ rest in
  imageFiles text ≠ []
  ∧ (33%N ∉ pre →
     ∃ urls,
       downloadZip API_BASE_URL (Some text) (Some (js "document"))
       = Some (text, urls)
       ∧ API_BASE_URL ++ js "/outputs/images/" ++ name ∈ urls).
Proof.
  intros Halt Hname Hclose text. split.
  - intros Hnil.
    assert (imageMatches text = []) as Hms.
    { destruct (imageMatches text) as [|[[i caps] n] ms] eqn:Hms; [done|].
      exfalso.
      assert ((i, caps, n) ∈ imageMatches text) as Hin
        by (rewrite Hms; left).
      apply imageLoop_sound in Hin as (alt' & name' & -> & _).
      assert (name' ∈ imageFiles text) as Hin.
      { apply imageFiles_elem. exists i, alt', n. rewrite Hms. left. }
      rewrite Hnil in Hin. by apply elem_of_nil in Hin. }
    apply (proj1 (imageMatches_nil text) Hms alt name).
    by exists pre, rest.
  - intros Hpre.
    assert (name ∈ imageFiles text) as Hin.
    { apply imageFiles_elem. eexists _, alt, _. unfold text.
      rewrite imageMatches_first by done. left. }
    unfold downloadZip.
    destruct text as [|c text'] eqn:Htext.
    { by apply elem_of_nil in Hin. }
    rewrite decide_True by done. eexists. split; [done|].
    apply list_elem_of_fmap. by exists name.
Qed.

Lemma reference_reaches_archive_witness :
  let api := js "http://127.0.0.1:5000" in
  let text := js "Figure: " ++ imageRef (js "a") (js "0.jpg") ++ js " end" in
  imageFiles text ≠ []
  ∧ (33%N ∉ js "Figure: " →
     ∃ urls,
       downloadZip api (Some text) (Some (js "document")) = Some (text, urls)
       ∧ api ++ js "/outputs/images/" ++ js "0.jpg" ∈ urls).
Proof.
  intros api text.
  assert (93%N ∉ js "a") as H2.
  { apply (bool_decide_unpack _). by vm_compute. }
  assert (js "0.jpg" ≠ []) as H3 by (by vm_compute).
  assert (41%N ∉ js "0.jpg") as H4.
  { apply (bool_decide_unpack _). by vm_compute. }
  exact (reference_reaches_archive api (js "Figure: ") _ _ (js " end")
           H2 H3 H4).
Defined.
